(** * xnote: the Drive synchronisation engine

    A shallow embedding of the sync module (the second half of
    src/sync/googleAuth.js, from its imports of ./driveApi.js and ../db.js
    on): the last-write-wins conflict resolver, the outbox push pipeline and
    the bootstrap/incremental pull pipeline, over an explicit model of the
    four IndexedDB object stores of db.js and of the Drive calls of
    driveApi.js that the module awaits. *)

From stdpp Require Import gmap strings list sorting pretty.

Local Open Scope Z_scope.

(** ** JavaScript values held in note fields *)

(** Numbers.  Note timestamps are epoch milliseconds, so the finite numbers
    of the model are the integers; [NaN] is what [Number] yields for a value
    that does not read as a number.  Fractions and the two infinities, which
    no timestamp taken from the clock is, are not among the numbers of the
    model. *)
Inductive jsnum :=
  | Fin (z : Z)
  | NaN.

(** The field values of a note record: the flat JSON values, and [undefined]
    for a property that IndexedDB stored as such. *)
Inductive jsval :=
  | JUndefined
  | JNull
  | JBool (b : bool)
  | JNum (n : jsnum)
  | JStr (s : string).

#[global] Instance jsnum_eq_dec : EqDecision jsnum.
Proof. solve_decision. Defined.
#[global] Instance jsval_eq_dec : EqDecision jsval.
Proof. solve_decision. Defined.

(** A note is a plain object: a finite map from property names to values. *)
Abbreviation Note := (gmap string jsval).

(** [o.k]: reading a property that is not there gives [undefined]. *)
Definition prop (o : Note) (k : string) : jsval := default JUndefined (o !! k).

(** ToBoolean. *)
Definition truthy (v : jsval) : bool :=
  match v with
  | JUndefined | JNull => false
  | JBool b => b
  | JNum (Fin z) => negb (z =? 0)
  | JNum NaN => false
  | JStr s => negb (String.eqb s "")
  end.

(** [a || b]. *)
Definition js_or (a b : jsval) : jsval := if truthy a then a else b.

(** [a > b] on numbers: false as soon as one side is NaN. *)
Definition num_gt (a b : jsnum) : bool :=
  match a, b with
  | Fin x, Fin y => y <? x
  | _, _ => false
  end.

(** [{ ...a, ...b }]: the properties of [b] laid over those of [a]. *)
Definition spread2 (a b : Note) : Note := b ∪ a.

Inductive Winner := Local | Remote.

Record MergeResult := { winner : Winner; merged : Note }.

#[global] Instance Winner_eq_dec : EqDecision Winner.
Proof. solve_decision. Defined.

(** The built-ins of the host that the module calls and that have no source
    here: the reading of a string as a number inside [Number], and
    [JSON.parse] (declared further down, with the parsed values). *)
Section Resolver.
Variable StringToNumber : string → jsnum.

(** [Number(v)]. *)
Definition Number (v : jsval) : jsnum :=
  match v with
  | JUndefined => NaN
  | JNull => Fin 0
  | JBool b => Fin (if b then 1 else 0)
  | JNum n => n
  | JStr s => StringToNumber s
  end.

(** [Number(note.updatedAtMs || 0)], the timestamp the resolver compares. *)
Definition stamp (note : Note) : jsnum :=
  Number (js_or (prop note "updatedAtMs") (JNum (Fin 0))).

(** mergeLastWriteWins. *)
Definition mergeLastWriteWins (local : option Note) (remote : Note) : MergeResult :=
  match local with
  | None => {| winner := Remote; merged := remote |}
  | Some loc =>
      let l := Number (js_or (prop loc "updatedAtMs") (JNum (Fin 0))) in
      let r := Number (js_or (prop remote "updatedAtMs") (JNum (Fin 0))) in
      if num_gt r l
      then {| winner := Remote; merged := spread2 loc remote |}
      else {| winner := Local; merged := loc |}
  end.
End Resolver.

(** ** The local database (db.js) *)

(** IndexedDB keys.  Of the values of the model, strings and finite numbers
    are valid keys; [undefined], [null], booleans and NaN are not, and
    handing one of them to [get], [put] or [delete] raises a DataError. *)
Inductive idbkey :=
  | KStr (s : string)
  | KNum (z : Z).

#[global] Instance idbkey_eq_dec : EqDecision idbkey.
Proof. solve_decision. Defined.

#[global] Instance idbkey_countable : Countable idbkey.
Proof.
  refine (inj_countable'
            (λ k, match k with KStr s => inl s | KNum z => inr z end)
            (λ x, match x with inl s => KStr s | inr z => KNum z end) _).
  by intros [].
Defined.

Definition to_key (v : jsval) : option idbkey :=
  match v with
  | JStr s => Some (KStr s)
  | JNum (Fin z) => Some (KNum z)
  | _ => None
  end.

Definition of_key (k : idbkey) : jsval :=
  match k with
  | KStr s => JStr s
  | KNum z => JNum (Fin z)
  end.

(** A value inside a template literal. *)
Definition js_to_string (v : jsval) : string :=
  match v with
  | JUndefined => "undefined"
  | JNull => "null"
  | JBool b => if b then "true" else "false"
  | JNum (Fin z) => pretty z
  | JNum NaN => "NaN"
  | JStr s => s
  end.

Inductive OpType := Upsert | Delete.

(** An outbox record without its [opId]: the store's key path is [opId], so
    the id is the key the record sits under. *)
Record OpRec := { type : OpType; noteId : idbkey; queuedAtMs : Z }.

(** An outbox operation as [listOps] hands it out: the id and the rest. *)
Abbreviation Op := (string * OpRec)%type.
Definition opId (op : Op) : string := op.1.

(** A driveMap record without its [noteId], which is the key. *)
Record Mapping := { driveFileId : string; md5 : option string }.

(** The four object stores: notes (key path noteId), outbox (key path opId),
    driveMap (key path noteId), syncMeta (key path key). *)
Record Db := {
  notes : gmap idbkey Note;
  outbox : gmap string OpRec;
  driveMap : gmap idbkey Mapping;
  syncMeta : gmap string string
}.

Definition set_notes (f : gmap idbkey Note → gmap idbkey Note) (d : Db) : Db :=
  {| notes := f (notes d); outbox := outbox d;
     driveMap := driveMap d; syncMeta := syncMeta d |}.
Definition set_outbox (f : gmap string OpRec → gmap string OpRec) (d : Db) : Db :=
  {| notes := notes d; outbox := f (outbox d);
     driveMap := driveMap d; syncMeta := syncMeta d |}.
Definition set_driveMap (f : gmap idbkey Mapping → gmap idbkey Mapping) (d : Db) : Db :=
  {| notes := notes d; outbox := outbox d;
     driveMap := f (driveMap d); syncMeta := syncMeta d |}.
Definition set_syncMeta (f : gmap string string → gmap string string) (d : Db) : Db :=
  {| notes := notes d; outbox := outbox d;
     driveMap := driveMap d; syncMeta := f (syncMeta d) |}.

(** The order of the [queuedAtMs] index: by enqueue time, ties by primary
    key. *)
Definition op_leb (a b : Op) : bool :=
  (queuedAtMs a.2 <? queuedAtMs b.2)
  || ((queuedAtMs a.2 =? queuedAtMs b.2) && String.leb a.1 b.1).

Definition op_le (a b : Op) : Prop := op_leb a b.

#[global] Instance op_le_dec : RelDecision op_le.
Proof. intros a b. unfold op_le. apply _. Defined.

(** db.js, listOps: [index('queuedAtMs').getAll()]. *)
Definition listOps (d : Db) : list Op :=
  merge_sort op_le (map_to_list (outbox d)).

Definition cursorKey : string := "drive.changeCursor".

(** ** The Drive calls (driveApi.js), at their interface *)

Record FileMeta := { meta_id : string; md5Checksum : option string }.

(** An entry of the bootstrap listing. *)
Record DriveFile := { f_id : string; f_appProperties : option (gmap string string) }.

(** An entry of the change feed, with the fields the request selects. *)
Record ChangeFile := { appProperties : option (gmap string string); trashed : bool }.
Record Change := { fileId : option string; removed : bool; file : option ChangeFile }.
Record ChangesPage := {
  changes : list Change;
  nextPageToken : option string;
  newStartPageToken : option string
}.

(** What a Drive call comes back with: its data, or the Error it throws. *)
Inductive reply (A : Type) :=
  | Ok (a : A)
  | Fail (message : string).
Arguments Ok {A} a.
Arguments Fail {A} message.

(** The remote side: a state [W] nobody but Drive sees, and one transition
    per request of driveApi.js. *)
Record DriveApi (W : Type) := {
  createJsonFileMultipart : string → Note → jsval → W → W * reply FileMeta;
  updateJsonFileMultipart : string → Note → jsval → W → W * reply FileMeta;
  deleteFile : string → W → W * reply unit;
  downloadFile : string → W → W * reply string;
  getStartPageToken : W → W * reply string;
  listChanges : string → W → W * reply ChangesPage;
  queryNoteFile : string → W → W * reply (option string);
  listAllNoteFiles : W → W * reply (list DriveFile)
}.
Arguments createJsonFileMultipart {W}.
Arguments updateJsonFileMultipart {W}.
Arguments deleteFile {W}.
Arguments downloadFile {W}.
Arguments getStartPageToken {W}.
Arguments listChanges {W}.
Arguments queryNoteFile {W}.
Arguments listAllNoteFiles {W}.

(** The requests sent, in order. *)
Inductive Call :=
  | CreateFile (name : string) (json : Note) (tag : jsval)
  | UpdateFile (file : string) (json : Note) (tag : jsval)
  | DeleteFile (file : string)
  | DownloadFile (file : string)
  | GetStartPageToken
  | ListChanges (pageToken : string)
  | FindNoteFile (tag : string)
  | ListAllNoteFiles.

#[global] Instance Call_eq_dec : EqDecision Call.
Proof. solve_decision. Defined.

(** What [JSON.parse] returns, as far as the module looks at it: [null], an
    object, or a value without a [noteId] property (a number, a string, a
    boolean, an array). *)
Inductive parsed :=
  | PNull
  | POther
  | PObj (o : Note).

(** ** The monad of the async functions: state, exceptions, fuel *)

Record SyncState (W : Type) := { db : Db; world : W; trace : list Call }.
Arguments db {W}.
Arguments world {W}.
Arguments trace {W}.

Inductive outcome (A : Type) :=
  | Ret (a : A)
  | Throw (message : string)
  | OutOfFuel.
Arguments Ret {A} a.
Arguments Throw {A} message.
Arguments OutOfFuel {A}.

Definition M (W A : Type) : Type := SyncState W → SyncState W * outcome A.

Definition ret {W A} (a : A) : M W A := λ st, (st, Ret a).

Definition bind {W A B} (m : M W A) (k : A → M W B) : M W B :=
  λ st, match m st with
        | (st', Ret a) => k a st'
        | (st', Throw e) => (st', Throw e)
        | (st', OutOfFuel) => (st', OutOfFuel)
        end.

Definition throw {W A} (e : string) : M W A := λ st, (st, Throw e).

(** [try { m } catch (e) { h e }]. *)
Definition try_catch {W A} (m : M W A) (h : string → M W A) : M W A :=
  λ st, match m st with
        | (st', Throw e) => h e st'
        | r => r
        end.

Declare Scope sync_scope.
Delimit Scope sync_scope with sync.
Notation "'let*' x := m 'in' k" := (bind m (λ x, k))
  (at level 10, x pattern, m at level 100, k at level 200) : sync_scope.
Notation "m ;;; k" := (bind m (λ _, k))
  (at level 100, k at level 200, right associativity) : sync_scope.

Definition readDb {W A} (f : Db → A) : M W A := λ st, (st, Ret (f (db st))).

Definition writeDb {W} (f : Db → Db) : M W unit :=
  λ st, ({| db := f (db st); world := world st; trace := trace st |}, Ret tt).

(** A Drive request: logged, run on the remote side, its Error rethrown. *)
Definition call {W A} (c : Call) (f : W → W * reply A) : M W A :=
  λ st, let '(w, r) := f (world st) in
        ({| db := db st; world := w; trace := trace st ++ [c] |},
         match r with Ok a => Ret a | Fail e => Throw e end).

(** [for (const x of l) body], threading the loop's variables [acc]. *)
Fixpoint for_of {W A S} (l : list A) (body : A → S → M W S) (acc : S) : M W S :=
  match l with
  | [] => ret acc
  | x :: l' => bind (body x acc) (for_of l' body)
  end.

Local Open Scope sync_scope.

(** ** db.js *)

Definition DataError : string := "DataError: the parameter is not a valid key".
Definition TypeError : string := "TypeError".

Section Stores.
Context {W : Type}.

(** The key check of [store.get], [store.put] and [store.delete]. *)
Definition as_key (v : jsval) : M W idbkey :=
  match to_key v with
  | Some k => ret k
  | None => throw DataError
  end.

Definition getNote (noteId : jsval) : M W (option Note) :=
  let* k := as_key noteId in readDb (λ d, notes d !! k).

Definition putNote (note : Note) : M W unit :=
  let* k := as_key (prop note "noteId") in writeDb (set_notes <[k := note]>).

Definition deleteOp (opId : string) : M W unit :=
  writeDb (set_outbox (delete opId)).

Definition getDriveMap (noteId : jsval) : M W (option Mapping) :=
  let* k := as_key noteId in readDb (λ d, driveMap d !! k).

Definition putDriveMap (noteId : jsval) (mapping : Mapping) : M W unit :=
  let* k := as_key noteId in writeDb (set_driveMap <[k := mapping]>).

Definition deleteDriveMap (noteId : jsval) : M W unit :=
  let* k := as_key noteId in writeDb (set_driveMap (delete k)).

Definition getMeta (key : string) : M W (option string) :=
  readDb (λ d, syncMeta d !! key).

Definition setMeta (key value : string) : M W unit :=
  writeDb (set_syncMeta <[key := value]>).
End Stores.

(** [s || null] on a string that may be missing: the empty string is falsy. *)
Definition nonempty (s : option string) : option string :=
  match s with
  | Some x => if String.eqb x "" then None else Some x
  | None => None
  end.

(** [mapping?.driveFileId || null]. *)
Definition mappedFileId (mapping : option Mapping) : option string :=
  nonempty (driveFileId <$> mapping).

(** [msg.includes(sub)]. *)
Definition includes (msg sub : string) : bool :=
  bool_decide (is_Some (String.index 0 sub msg)).

(** The test of the catch block of pushDelete, negated: the failure is a
    file that is already gone. *)
Definition is_not_found (msg : string) : bool :=
  includes msg "File not found" || includes msg "404".

(** [props.kind !== 'note' || !props.noteId], negated. *)
Definition is_note_props (props : gmap string string) : bool :=
  bool_decide (props !! "kind" = Some "note")
  && bool_decide (is_Some (nonempty (props !! "noteId"))).

(** ** The sync module *)

Definition noteFileName (noteId : jsval) : string :=
  "note-" +:+ js_to_string noteId +:+ ".json".

Section Sync.
Context {W : Type}.
Variable StringToNumber : string → jsnum.
Variable JSON_parse : string → option parsed.
Variable api : DriveApi W.

(** driveApi.js, findNoteFileByNoteId: [req.noteId.replace] is there for
    strings only. *)
Definition findNoteFileByNoteId (noteId : jsval) : M W (option string) :=
  match noteId with
  | JStr s => call (FindNoteFile s) (queryNoteFile api s)
  | _ => throw TypeError
  end.

(** The first statements of pushUpsert and of pushDelete, which compute the
    same thing: the file id of the stored mapping, else, only when that one
    is missing or empty, the id the lookup by tag finds. *)
Definition resolveFileId (noteId : jsval) : M W (option string) :=
  let* mapping := getDriveMap noteId in
  match mappedFileId mapping with
  | Some f => ret (Some f)
  | None => let* found := findNoteFileByNoteId noteId in ret (nonempty found)
  end.

Definition pushUpsert (note : Note) : M W unit :=
  let* fileId := resolveFileId (prop note "noteId") in
  match fileId with
  | None =>
      let* created :=
        call (CreateFile (noteFileName (prop note "noteId")) note (prop note "noteId"))
             (createJsonFileMultipart api (noteFileName (prop note "noteId")) note
                (prop note "noteId")) in
      putDriveMap (prop note "noteId")
        {| driveFileId := meta_id created; md5 := md5Checksum created |}
  | Some f =>
      let* updated :=
        call (UpdateFile f note (prop note "noteId"))
             (updateJsonFileMultipart api f note (prop note "noteId")) in
      putDriveMap (prop note "noteId")
        {| driveFileId := meta_id updated; md5 := md5Checksum updated |}
  end.

Definition pushDelete (noteId : jsval) : M W unit :=
  let* fileId := resolveFileId noteId in
  match fileId with
  | Some f =>
      try_catch (call (DeleteFile f) (deleteFile api f))
                (λ e, if is_not_found e then ret tt else throw e)
  | None => ret tt
  end;;;
  deleteDriveMap noteId.

(** One turn of the loop of pushOutbox; [pushed] is the counter. *)
Definition pushOp (op : Op) (pushed : nat) : M W nat :=
  match type op.2 with
  | Upsert =>
      let* note := getNote (of_key (noteId op.2)) in
      match note with
      | None => deleteOp (opId op);;; ret pushed
      | Some note =>
          if truthy (prop note "deletedAtMs")
          then pushDelete (prop note "noteId");;; deleteOp (opId op);;; ret (S pushed)
          else pushUpsert note;;; deleteOp (opId op);;; ret (S pushed)
      end
  | Delete =>
      pushDelete (of_key (noteId op.2));;; deleteOp (opId op);;; ret (S pushed)
  end.

Definition pushOutbox : M W nat :=
  let* ops := readDb listOps in
  for_of ops pushOp 0%nat.

(** [remoteNote.k] on a parsed body: a TypeError on [null], [undefined]
    on a value that has no such property. *)
Definition member (remoteNote : parsed) (k : string) : M W jsval :=
  match remoteNote with
  | PNull => throw TypeError
  | POther => ret JUndefined
  | PObj o => ret (prop o k)
  end.

(** The own properties of a parsed body, as the resolver reads and spreads
    them. *)
Definition fields (remoteNote : parsed) : Note :=
  match remoteNote with
  | PObj o => o
  | _ => ∅
  end.

(** One turn of the loop of ensureCursor. *)
Definition bootstrapFile (f : DriveFile) (_ : unit) : M W unit :=
  let props := default ∅ (f_appProperties f) in
  if negb (is_note_props props) then ret tt
  else
    let* raw := call (DownloadFile (f_id f)) (downloadFile api (f_id f)) in
    match JSON_parse raw with
    | None => ret tt
    | Some remoteNote =>
        let* rid := member remoteNote "noteId" in
        let* local := getNote rid in
        let res := mergeLastWriteWins StringToNumber local (fields remoteNote) in
        match winner res with
        | Remote => putNote (merged res)
        | Local => ret tt
        end;;;
        let* mapping := getDriveMap rid in
        match mappedFileId mapping with
        | None => putDriveMap rid {| driveFileId := f_id f; md5 := None |}
        | Some _ => ret tt
        end
    end.

Definition ensureCursor : M W string :=
  let* cursor := getMeta cursorKey in
  match nonempty cursor with
  | Some c => ret c
  | None =>
      let* files := call ListAllNoteFiles (listAllNoteFiles api) in
      for_of files bootstrapFile tt;;;
      let* cursor := call GetStartPageToken (getStartPageToken api) in
      setMeta cursorKey cursor;;;
      ret cursor
  end.

(** One turn of the inner loop of pullChanges. *)
Definition pullChange (ch : Change) (pulled : nat) : M W nat :=
  match nonempty (fileId ch) with
  | None => ret pulled
  | Some fid =>
      if removed ch || from_option trashed false (file ch) then ret pulled
      else
        let props := default ∅ (file ch ≫= appProperties) in
        if negb (is_note_props props) then ret pulled
        else
          let* raw := call (DownloadFile fid) (downloadFile api fid) in
          match JSON_parse raw with
          | None => ret pulled
          | Some remoteNote =>
              let* rid := member remoteNote "noteId" in
              let* local := getNote rid in
              let res := mergeLastWriteWins StringToNumber local (fields remoteNote) in
              let* pulled :=
                match winner res with
                | Remote => putNote (merged res);;; ret (S pulled)
                | Local => ret pulled
                end in
              let* mapping := getDriveMap rid in
              match mappedFileId mapping with
              | None => putDriveMap rid {| driveFileId := fid; md5 := None |}
              | Some _ => ret tt
              end;;;
              ret pulled
          end
  end.

(** The [while (true)] of pullChanges, one page a turn. *)
Fixpoint pullPages (fuel : nat) (cursor : string) (pulled : nat) : M W nat :=
  match fuel with
  | O => λ st, (st, OutOfFuel)
  | S fuel =>
      let* data := call (ListChanges cursor) (listChanges api cursor) in
      let* pulled := for_of (changes data) pullChange pulled in
      match nonempty (nextPageToken data) with
      | Some next => pullPages fuel next pulled
      | None =>
          match nonempty (newStartPageToken data) with
          | Some token => setMeta cursorKey token
          | None => setMeta cursorKey cursor
          end;;;
          ret pulled
      end
  end.

Definition pullChanges (fuel : nat) : M W nat :=
  let* cursor := ensureCursor in
  pullPages fuel cursor 0%nat.
End Sync.

(** ** A small Drive to run the module against *)

Module Fake.
(** A remote side that answers from fixed tables and never changes. *)
Record Drive := {
  bodies : gmap string string;          (* file id -> body *)
  listing : list DriveFile;             (* the appDataFolder listing *)
  pages : gmap string ChangesPage;      (* page token -> page of changes *)
  startToken : string;
  tagged : gmap string string;          (* noteId tag -> file id *)
  deleteError : option string           (* what files.delete throws, if it does *)
}.

Definition api : DriveApi Drive := {|
  createJsonFileMultipart name _ _ w :=
    (w, Ok {| meta_id := "id-of-" +:+ name; md5Checksum := Some "md5-created" |});
  updateJsonFileMultipart f _ _ w :=
    (w, Ok {| meta_id := f; md5Checksum := Some "md5-updated" |});
  deleteFile _ w :=
    (w, match deleteError w with Some e => Fail e | None => Ok tt end);
  downloadFile f w :=
    (w, match bodies w !! f with Some b => Ok b | None => Fail "File not found." end);
  getStartPageToken w := (w, Ok (startToken w));
  listChanges t w :=
    (w, match pages w !! t with Some p => Ok p | None => Fail "Invalid page token." end);
  queryNoteFile tag w := (w, Ok (tagged w !! tag));
  listAllNoteFiles w := (w, Ok (listing w))
|}.

(** [Number] on strings, for strings of decimal digits (the empty string
    reads as 0); every other string of the examples reads as NaN. *)
Fixpoint digits (s : string) (acc : Z) : option Z :=
  match s with
  | EmptyString => Some acc
  | String c s' =>
      let n := Z.of_N (Ascii.N_of_ascii c) in
      if (48 <=? n) && (n <=? 57) then digits s' (10 * acc + (n - 48)) else None
  end.

Definition StringToNumber (s : string) : jsnum :=
  match digits s 0 with Some z => Fin z | None => NaN end.

(** The bodies of the examples and what they parse to. *)
Definition note (noteId : string) (updatedAtMs : Z) (title : string) : Note :=
  {[ "noteId" := JStr noteId; "updatedAtMs" := JNum (Fin updatedAtMs);
     "title" := JStr title ]}.

Definition JSON_parse (raw : string) : option parsed :=
  if String.eqb raw "b@200" then Some (PObj (note "b" 200 "remote b"))
  else if String.eqb raw "a@200" then Some (PObj (note "a" 200 "remote a"))
  else if String.eqb raw "null" then Some PNull
  else if String.eqb raw "5" then Some POther
  else None.

Definition noteProps (noteId : string) : option (gmap string string) :=
  Some {[ "kind" := "note"; "noteId" := noteId ]}.

Definition emptyDb : Db :=
  {| notes := ∅; outbox := ∅; driveMap := ∅; syncMeta := ∅ |}.

Definition emptyDrive : Drive :=
  {| bodies := ∅; listing := []; pages := ∅; startToken := "t0";
     tagged := ∅; deleteError := None |}.

Definition start (d : Db) (w : Drive) : SyncState Drive :=
  {| db := d; world := w; trace := [] |}.

Definition noteChange (file noteId : string) : Change :=
  {| fileId := Some file; removed := false;
     file := Some {| appProperties := noteProps noteId; trashed := false |} |}.

(** A Drive that holds note "b" (updatedAtMs 200) in file "f1": the file
    is in the listing, and the change feed reports it on the page of
    token "t0"; from "t1", the start token, on nothing has changed. *)
Definition driveWithB : Drive :=
  {| bodies := {[ "f1" := "b@200" ]};
     listing := [ {| f_id := "f1"; f_appProperties := noteProps "b" |} ];
     pages := {[ "t0" := {| changes := [noteChange "f1" "b"];
                            nextPageToken := None;
                            newStartPageToken := Some "t1" |};
                 "t1" := {| changes := []; nextPageToken := None;
                            newStartPageToken := Some "t1" |} ]};
     startToken := "t1"; tagged := {[ "b" := "f1" ]}; deleteError := None |}.

(** The same, with a second change on the page whose file can no longer
    be downloaded. *)
Definition driveWithGap : Drive :=
  {| bodies := {[ "f1" := "b@200" ]};
     listing := [];
     pages := {[ "t0" := {| changes := [noteChange "f1" "b"; noteChange "f2" "z"];
                            nextPageToken := None;
                            newStartPageToken := Some "t1" |} ]};
     startToken := "t1"; tagged := ∅; deleteError := None |}.

Definition withCursor (token : string) (d : Db) : Db :=
  set_syncMeta <[cursorKey := token]> d.

Definition withMapping (noteId file : string) (d : Db) : Db :=
  set_driveMap <[KStr noteId := {| driveFileId := file; md5 := None |}]> d.

Definition withNote (n : Note) (d : Db) : Db :=
  set_notes (match to_key (prop n "noteId") with
             | Some k => <[k := n]>
             | None => λ m, m
             end) d.

Definition withOp (opId : string) (t : OpType) (noteId : string) (at_ : Z) (d : Db) : Db :=
  set_outbox <[opId := {| type := t; noteId := KStr noteId; queuedAtMs := at_ |}]> d.

(** A Drive whose files.delete fails with a server error. *)
Definition driveDown : Drive :=
  {| bodies := ∅; listing := []; pages := ∅; startToken := "t1";
     tagged := ∅; deleteError := Some "Backend Error" |}.

(** Note "a" edited locally and not yet on Drive, note "b" deleted
    locally and mapped to file "f1": an upsert queued at 10, a delete
    queued at 20. *)
Definition op1 : Op := ("op1", {| type := Upsert; noteId := KStr "a"; queuedAtMs := 10 |}).
Definition op2 : Op := ("op2", {| type := Delete; noteId := KStr "b"; queuedAtMs := 20 |}).

Definition twoOps : Db :=
  withOp "op2" Delete "b" 20
    (withOp "op1" Upsert "a" 10
       (withMapping "b" "f1" (withNote (note "a" 100 "local a") emptyDb))).
End Fake.

(** ** Vocabulary of the properties *)

(** The message with which files.delete refuses a file that the user may
    not delete (status 403); the file id is part of it. *)
Definition refusal (f : string) : string :=
  "The user does not have sufficient permissions for file " +:+ f +:+ ".".

(** A Drive that answers every files.delete of file [f] with that
    refusal. *)
Definition driveRefusing (f : string) : Fake.Drive :=
  {| Fake.bodies := ∅; Fake.listing := []; Fake.pages := ∅; Fake.startToken := "t1";
     Fake.tagged := ∅; Fake.deleteError := Some (refusal f) |}.

(** A change that reports a removed or a trashed file. *)
Definition is_removal (ch : Change) : bool :=
  removed ch || from_option trashed false (file ch).

(** The answer of the lookup by tag that counts as "no file". *)
Definition finds_nothing {W} (api : DriveApi W) (noteId : jsval)
    (st st1 : SyncState W) : Prop :=
  ∃ found, findNoteFileByNoteId api noteId st = (st1, Ret found)
           ∧ nonempty found = None.

(** The answer of the lookup by tag that recovers the file id [f]. *)
Definition recovers {W} (api : DriveApi W) (noteId : jsval)
    (st st1 : SyncState W) (f : string) : Prop :=
  ∃ found, findNoteFileByNoteId api noteId st = (st1, Ret found)
           ∧ nonempty found = Some f.

(** What an upload call [c], sent from state [st], leaves behind: the
    mapping written when the call answered, nothing written when it
    threw. *)
Definition persist {W} (k : idbkey) (c : Call) (st : SyncState W)
    (answer : W * reply FileMeta) : SyncState W * outcome unit :=
  match answer.2 with
  | Ok meta =>
      ({| db := set_driveMap
                  <[k := {| driveFileId := meta_id meta; md5 := md5Checksum meta |}]>
                  (db st);
          world := answer.1; trace := trace st ++ [c] |}, Ret tt)
  | Fail e =>
      ({| db := db st; world := answer.1; trace := trace st ++ [c] |}, Throw e)
  end.

(** What the delete of file [f], sent from state [st1], leaves behind: the
    mapping of [k] removed when the call answered or the file was already
    gone, nothing written when it threw anything else. *)
Definition unlink {W} (api : DriveApi W) (k : idbkey) (f : string)
    (st1 : SyncState W) : SyncState W * outcome unit :=
  let gone := ({| db := set_driveMap (delete k) (db st1);
                  world := (deleteFile api f (world st1)).1;
                  trace := trace st1 ++ [DeleteFile f] |}, Ret tt) in
  match (deleteFile api f (world st1)).2 with
  | Ok _ => gone
  | Fail e =>
      if is_not_found e then gone
      else ({| db := db st1; world := (deleteFile api f (world st1)).1;
               trace := trace st1 ++ [DeleteFile f] |}, Throw e)
  end.

(** [m] ends, however it ends, with the [part] of the database it began
    with. *)
Definition keeps {W X A} (part : Db → X) (m : M W A) : Prop :=
  ∀ st st' r, m st = (st', r) → part (db st') = part (db st).

(** A turn of the loop of pushOutbox up to its [deleteOp]: what the
    operation does on the remote side and to the mapping, and whether it
    counts as pushed ([false] for an operation that is moot). *)
Definition opEffect {W} (api : DriveApi W) (op : Op) : M W bool :=
  match type op.2 with
  | Upsert =>
      let* note := getNote (of_key (noteId op.2)) in
      match note with
      | None => ret false
      | Some note =>
          if truthy (prop note "deletedAtMs")
          then pushDelete api (prop note "noteId");;; ret true
          else pushUpsert api note;;; ret true
      end
  | Delete => pushDelete api (of_key (noteId op.2));;; ret true
  end.

(** The mapping of a note after a file [file] that holds the note was
    discovered: the stored one if it has a file id, else one for [file]. *)
Definition mappingAfter (file : string) (before : option Mapping) : option Mapping :=
  match mappedFileId before with
  | Some _ => before
  | None => Some {| driveFileId := file; md5 := None |}
  end.

(** ** Vocabulary of the further properties *)

(** The order in which timestamps can move: not at all, or to one that the
    comparison of the resolver ([>]) finds greater. *)
Definition stamp_le (a b : jsnum) : Prop :=
  a = b ∨ num_gt b a = true.

(** [m] ends, however it ends, in a database related by [R] to the one it
    began with. *)
Definition steps {W A} (R : relation Db) (m : M W A) : Prop :=
  ∀ st st' r, m st = (st', r) → R (db st) (db st').

(** [m] sends, however it ends, only requests that satisfy [P]. *)
Definition sends {W A} (P : Call → Prop) (m : M W A) : Prop :=
  ∀ st st' r, m st = (st', r) →
    ∃ calls, trace st' = trace st ++ calls ∧ Forall P calls.

(** The requests that read from Drive, and those that change it. *)
Definition is_read (c : Call) : Prop :=
  match c with
  | DownloadFile _ | GetStartPageToken | ListChanges _
  | FindNoteFile _ | ListAllNoteFiles => True
  | _ => False
  end.

Definition is_upload (c : Call) : Prop :=
  match c with
  | CreateFile _ _ _ | UpdateFile _ _ _ => True
  | _ => False
  end.

(** The requests of the push pipeline. *)
Definition is_push_call (c : Call) : Prop :=
  match c with
  | CreateFile _ _ _ | UpdateFile _ _ _ | DeleteFile _ | FindNoteFile _ => True
  | _ => False
  end.

(** The requests that the delete of a note may send. *)
Definition is_delete_call (c : Call) : Prop :=
  match c with
  | DeleteFile _ | FindNoteFile _ => True
  | _ => False
  end.

(** The requests of the pull pipeline. *)
Definition is_pull_call (c : Call) : Prop :=
  match c with
  | ListAllNoteFiles | DownloadFile _ | GetStartPageToken | ListChanges _ => True
  | _ => False
  end.

(** What a pull may do to the database [d], giving [d']: nothing to the
    outbox; to a note, replace it by one whose timestamp is the same or
    greater; to a mapping, nothing if it has a file id, and else replace it. *)
Definition pull_safe (StringToNumber : string → jsnum) (d d' : Db) : Prop :=
  outbox d' = outbox d
  ∧ (∀ k n, notes d !! k = Some n →
       ∃ n', notes d' !! k = Some n'
             ∧ stamp_le (stamp StringToNumber n) (stamp StringToNumber n'))
  ∧ (∀ k m, driveMap d !! k = Some m →
       is_Some (driveMap d' !! k)
       ∧ (is_Some (mappedFileId (Some m)) → driveMap d' !! k = Some m)).

(** ** More of driveApi.js *)

Definition apostrophe : Ascii.ascii :=
  Eval compute in match "'" with String c _ => c | EmptyString => Ascii.zero end.
Definition backslash : Ascii.ascii :=
  Eval compute in match "\" with String c _ => c | EmptyString => Ascii.zero end.

(** [s.replace(/'/g, ...)] with a backslash and an apostrophe as the
    replacement: a backslash before every apostrophe. *)
Fixpoint escapeQuotes (s : string) : string :=
  match s with
  | EmptyString => EmptyString
  | String c s' =>
      if Ascii.eqb c apostrophe
      then String backslash (String apostrophe (escapeQuotes s'))
      else String c (escapeQuotes s')
  end.

(** The [q] of findNoteFileByNoteId: the two conditions joined by [' and ']. *)
Definition noteIdQuery (noteId : string) : string :=
  "trashed = false" +:+ " and "
  +:+ ("appProperties has { key='noteId' and value='" +:+ escapeQuotes noteId +:+ "' }").

(** A page of [files.list], as listAllNoteFiles reads it: [data.files] and
    [data.nextPageToken], either of which may be missing. *)
Record FilesPage := { page_files : option (list DriveFile); page_next : option string }.

(** listAllNoteFiles: its [while (true)], over the request it repeats.
    [request pageToken] is the call of driveRequest, with the page token
    when there is one; its data may be [null]. *)
Fixpoint listAllNoteFilesFrom {W : Type}
    (request : option string → W → W * reply (option FilesPage))
    (fuel : nat) (pageToken : option string) (files : list DriveFile) (w : W)
    : W * outcome (list DriveFile) :=
  match fuel with
  | O => (w, OutOfFuel)
  | S fuel =>
      match request pageToken w with
      | (w', Fail e) => (w', Throw e)
      | (w', Ok data) =>
          let files := files ++ default [] (data ≫= page_files) in
          match nonempty (data ≫= page_next) with
          | None => (w', Ret files)
          | Some next => listAllNoteFilesFrom request fuel (Some next) files w'
          end
      end
  end.

Definition listAllNoteFilesPaged {W : Type}
    (request : option string → W → W * reply (option FilesPage)) (fuel : nat) (w : W)
    : W * outcome (list DriveFile) :=
  listAllNoteFilesFrom request fuel None [] w.

(** The files of a page, as the loop collects them. *)
Definition filesOf (data : option FilesPage) : list DriveFile :=
  default [] (data ≫= page_files).

(** The pages [ps] are what the remote side [w] answers, one after the
    other, to the requests that start with [pageToken] and go on with each
    page's [nextPageToken]; every one of them has a [nextPageToken], and
    after the last the token is [pageToken'] and the remote side [w']. *)
Fixpoint leads {W : Type}
    (request : option string → W → W * reply (option FilesPage))
    (pageToken : option string) (w : W) (ps : list (option FilesPage))
    (pageToken' : option string) (w' : W) : Prop :=
  match ps with
  | [] => pageToken' = pageToken ∧ w' = w
  | p :: ps' =>
      ∃ w1 next, request pageToken w = (w1, Ok p)
                 ∧ nonempty (p ≫= page_next) = Some next
                 ∧ leads request (Some next) w1 ps' pageToken' w'
  end.

(** What the fetch of driveRequest resolved to, as far as driveRequest
    looks at it. *)
Record Response := { status : Z; ok : bool; text : string }.

(** The message of driveRequest for a failure without one of its own,
    [status] being in the template as a decimal number. *)
Definition status_message (status : Z) : string :=
  "Drive request failed (" +:+ pretty status +:+ ").".

(** driveRequest and deleteFile, from the response on.  [parse] is
    [JSON.parse], which answers with the data or throws an Error with a
    message of its own, and [errorMessage] reads [data.error.message]; [D]
    is the type of the parsed data. *)
Section DriveRequest.
Context {D : Type}.
Variable parse : string → reply D.
Variable errorMessage : D → option string.

Definition driveRequest (res : Response) : reply (option D) :=
  if status res =? 204 then Ok None
  else
    match (if String.eqb (text res) "" then Ok None
           else match parse (text res) with
                | Ok data => Ok (Some data)
                | Fail e => Fail e
                end) with
    | Fail e => Fail e
    | Ok data =>
        if negb (ok res)
        then Fail (default (status_message (status res))
                     (nonempty (data ≫= errorMessage)))
        else Ok data
    end.

Definition deleteFileResult (res : Response) : reply unit :=
  match driveRequest res with
  | Ok _ => Ok tt
  | Fail e => Fail e
  end.
End DriveRequest.

(** A listing in two pages, and one whose second page fails; data with an
    optional error message, written as it is. *)
Module FakePages.
Definition fileA : DriveFile := {| f_id := "f1"; f_appProperties := Fake.noteProps "a" |}.
Definition fileB : DriveFile := {| f_id := "f2"; f_appProperties := Fake.noteProps "b" |}.

Definition page1 : option FilesPage :=
  Some {| page_files := Some [fileA]; page_next := Some "p2" |}.
Definition page2 : option FilesPage :=
  Some {| page_files := Some [fileB]; page_next := None |}.

(** The remote side is [true] while the second page can be served. *)
Definition request (pageToken : option string) (up : bool) : bool * reply (option FilesPage) :=
  match pageToken with
  | None => (up, Ok page1)
  | Some t =>
      if String.eqb t "p2"
      then (up, if up then Ok page2 else Fail "Backend Error")
      else (up, Fail "Invalid page token.")
  end.

(** Parsed data that is its own error message. *)
Definition parse (text : string) : reply string := Ok text.
Definition errorMessage (data : string) : option string := Some data.
End FakePages.

(** ** More of db.js *)

(** enqueueOp: [store.put(op)] on the outbox, whose key path is [opId]. *)
Definition enqueueOp {W : Type} (op : Op) : M W unit :=
  writeDb (set_outbox <[op.1 := op.2]>).

(** softDeleteNote. *)
Definition softDeleteNote {W : Type} (noteId deletedAtMs : jsval) : M W unit :=
  let* note := getNote noteId in
  match note with
  | None => ret tt
  | Some note =>
      putNote (<["updatedAtMs" := deletedAtMs]> (<["deletedAtMs" := deletedAtMs]> note))
  end.

(** The order of IndexedDB keys: numbers before strings. *)
Definition key_leb (a b : idbkey) : bool :=
  match a, b with
  | KNum x, KNum y => x <=? y
  | KNum _, KStr _ => true
  | KStr _, KNum _ => false
  | KStr s, KStr t => String.leb s t
  end.

Definition key_le (a b : idbkey * Note) : Prop := key_leb a.1 b.1.

#[global] Instance key_le_dec : RelDecision key_le.
Proof. intros a b. unfold key_le. apply _. Defined.

(** [store.getAll()] on the notes store: the records by ascending key. *)
Definition getAllNotes (d : Db) : list Note :=
  (merge_sort key_le (map_to_list (notes d))).*2.

(** [x - y] on numbers. *)
Definition num_sub (x y : jsnum) : jsnum :=
  match x, y with
  | Fin a, Fin b => Fin (a - b)
  | _, _ => NaN
  end.

(** [Array.prototype.sort(cmp)] as a stable insertion sort: [b] goes before
    [a] when [cmp a b] is greater than 0, and in every other case (0,
    negative, NaN) [a] stays before [b].  A comparator that is consistent
    determines the result of [sort], and this is it; for one that is not
    the result is left to the engine. *)
Section JsSort.
Context {A : Type}.
Variable cmp : A → A → jsnum.

Fixpoint js_insert (x : A) (l : list A) : list A :=
  match l with
  | [] => [x]
  | y :: l' => if num_gt (cmp x y) (Fin 0) then y :: js_insert x l' else x :: y :: l'
  end.

Fixpoint js_sort (l : list A) : list A :=
  match l with
  | [] => []
  | x :: l' => js_insert x (js_sort l')
  end.
End JsSort.

(** A note that is not a tombstone: [!n.deletedAtMs]. *)
Definition live (n : Note) : bool := negb (truthy (prop n "deletedAtMs")).

(** listNotes.  The comparator is [(b.updatedAtMs || 0) - (a.updatedAtMs || 0)];
    the subtraction converts both operands to numbers, which makes them the
    timestamps that the resolver reads ([stamp]). *)
Definition listNotes (StringToNumber : string → jsnum) (d : Db) : list Note :=
  js_sort (λ a b, num_sub (stamp StringToNumber b) (stamp StringToNumber a))
    (filter (λ n, live n = true) (getAllNotes d)).

(** Every record of the notes store sits under its own [noteId], as the
    store's key path makes it. *)
Definition notes_keyed (d : Db) : Prop :=
  ∀ k n, notes d !! k = Some n → to_key (prop n "noteId") = Some k.

(** ** util.js *)

(** A string as the sequence of its UTF-16 code units, which is what
    [length], [slice] and a regular expression without the [u] flag work
    on. *)
Abbreviation ustring := (list Z).

(** The class [\s], which is also what [trim] strips: WhiteSpace and
    LineTerminator. *)
Definition is_space (c : Z) : bool :=
  (c =? 0x09) || (c =? 0x0A) || (c =? 0x0B) || (c =? 0x0C) || (c =? 0x0D)
  || (c =? 0x20) || (c =? 0xA0) || (c =? 0x1680)
  || ((0x2000 <=? c) && (c <=? 0x200A))
  || (c =? 0x2028) || (c =? 0x2029) || (c =? 0x202F) || (c =? 0x205F)
  || (c =? 0x3000) || (c =? 0xFEFF).

(** [s.replace(/\s+/g, ' ')]: every maximal run of whitespace becomes one
    space; [in_run] tells that the code unit before was whitespace. *)
Fixpoint replaceSpaces (in_run : bool) (s : ustring) : ustring :=
  match s with
  | [] => []
  | c :: s' =>
      if is_space c
      then (if in_run then replaceSpaces true s' else 0x20 :: replaceSpaces true s')
      else c :: replaceSpaces false s'
  end.

Fixpoint trimStart (s : ustring) : ustring :=
  match s with
  | [] => []
  | c :: s' => if is_space c then trimStart s' else s
  end.

Fixpoint trimEnd (s : ustring) : ustring :=
  match s with
  | [] => []
  | c :: s' =>
      match trimEnd s' with
      | [] => if is_space c then [] else [c]
      | t => c :: t
      end
  end.

Definition trim (s : ustring) : ustring := trimEnd (trimStart s).

(** [s.slice(start, end)] for integer bounds: a negative bound counts from
    the end, and both are clamped to the string. *)
Definition slice {A} (s : list A) (start end_ : Z) : list A :=
  let len := Z.of_nat (length s) in
  let from := if start <? 0 then Z.max (len + start) 0 else Z.min start len in
  let to := if end_ <? 0 then Z.max (len + end_) 0 else Z.min end_ len in
  take (Z.to_nat (to - from)) (drop (Z.to_nat from) s).

(** The three characters that close the template literal of snippet in the
    source file: U+00E2, U+20AC, U+00A6. *)
Definition ellipsis : ustring := [0xE2; 0x20AC; 0xA6].

(** snippet, for a text that is a string ([Some]) or null or undefined
    ([None]) and a [maxLen] that is an integer or left out. *)
Definition snippet (text : option ustring) (maxLen : option Z) : ustring :=
  let maxLen := default 90 maxLen in
  let s := trim (replaceSpaces false (default [] text)) in
  if Z.of_nat (length s) <=? maxLen then s
  else slice s 0 (maxLen - 1) ++ ellipsis.

(** A text that does not begin, and one that does not end, with
    whitespace. *)
Definition no_space_first (s : ustring) : Prop :=
  match s with c :: _ => is_space c = false | [] => True end.

Definition no_space_last (s : ustring) : Prop :=
  match last s with Some c => is_space c = false | None => True end.

(** A text in which whitespace only occurs as single spaces: every
    whitespace code unit is U+0020 and the code unit after it, if there is
    one, is not whitespace. *)
Fixpoint single_spaced (s : ustring) : Prop :=
  match s with
  | [] => True
  | c :: s' => (is_space c = true → c = 0x20 ∧ no_space_first s') ∧ single_spaced s'
  end.

(** The text that snippet works on, cleaned up. *)
Definition tidy (s : ustring) : Prop :=
  single_spaced s ∧ no_space_first s ∧ no_space_last s.

(** [b.toString(16)] for an element of a Uint8Array. *)
Definition hexDigit (d : Z) : Ascii.ascii :=
  default Ascii.zero (String.get (Z.to_nat d) "0123456789abcdef").

Definition toString16 (b : Z) : string :=
  if b <? 16 then String (hexDigit b) ""
  else String (hexDigit (b / 16)) (String (hexDigit (b mod 16)) "").

(** [s.padStart(n, c)] for a one-character [c]. *)
Definition padStart (n : nat) (c : Ascii.ascii) (s : string) : string :=
  String.string_of_list_ascii (replicate (n - String.length s) c) +:+ s.

Definition zeroDigit : Ascii.ascii := hexDigit 0.

(** [hex.slice(from, to)] and [hex.slice(from)] on a string of ASCII
    characters, for bounds that are not negative. *)
Definition str_slice (s : string) (from to : nat) : string :=
  String.substring from (Nat.min to (String.length s) - from) s.

Definition str_slice_from (s : string) (from : nat) : string :=
  str_slice s from (String.length s).

(** createId.  [randomUUID] is what [crypto.randomUUID()] returns where the
    host has it, [random] the 16 elements that [crypto.getRandomValues]
    puts into the array. *)
Definition createId (randomUUID : option string) (random : list Z) : string :=
  match randomUUID with
  | Some uuid => uuid
  | None =>
      let bytes := random in
      let bytes := <[6%nat := Z.lor (Z.land (bytes !!! 6%nat) 0x0f) 0x40]> bytes in
      let bytes := <[8%nat := Z.lor (Z.land (bytes !!! 8%nat) 0x3f) 0x80]> bytes in
      let hex := String.concat "" ((λ b, padStart 2 zeroDigit (toString16 b)) <$> bytes) in
      str_slice hex 0 8 +:+ "-" +:+ str_slice hex 8 12 +:+ "-"
        +:+ str_slice hex 12 16 +:+ "-" +:+ str_slice hex 16 20 +:+ "-"
        +:+ str_slice_from hex 20
  end.

(** The shape of a version 4 UUID: 36 characters, a hyphen at the positions
    8, 13, 18 and 23, the digit 4 at position 14, one of 8, 9, a, b at
    position 19 and a lower-case hexadecimal digit everywhere else. *)
Definition code (c : Ascii.ascii) : Z := Z.of_N (Ascii.N_of_ascii c).

Definition is_hex (c : Ascii.ascii) : bool :=
  ((48 <=? code c) && (code c <=? 57)) || ((97 <=? code c) && (code c <=? 102)).

Definition uuid_char_ok (i : nat) (c : Ascii.ascii) : bool :=
  match i with
  | 8%nat | 13%nat | 18%nat | 23%nat => code c =? 45
  | 14%nat => code c =? 52
  | 19%nat => (code c =? 56) || (code c =? 57) || (code c =? 97) || (code c =? 98)
  | _ => is_hex c
  end.

Fixpoint uuid_chars_ok (i : nat) (s : string) : bool :=
  match s with
  | EmptyString => true
  | String c s' => uuid_char_ok i c && uuid_chars_ok (S i) s'
  end.

Definition is_uuid_v4 (s : string) : bool :=
  (String.length s =? 36)%nat && uuid_chars_ok 0 s.

(** * Properties *)

(** ** The conflict resolver *)

Section ResolverFacts.
Variable StringToNumber : string → jsnum.
Implicit Types (loc remote note : Note).

Lemma stamp_int note z :
  note !! "updatedAtMs" = Some (JNum (Fin z)) → stamp StringToNumber note = Fin z.
Proof.
  intros Hz. unfold stamp, prop, js_or. rewrite Hz. simpl.
  destruct (Z.eqb_spec z 0) as [->|]; reflexivity.
Qed.

Lemma stamp_falsy note :
  truthy (prop note "updatedAtMs") = false → stamp StringToNumber note = Fin 0.
Proof. intros Hf. unfold stamp, js_or. by rewrite Hf. Qed.

Lemma stamp_missing note :
  note !! "updatedAtMs" = None → stamp StringToNumber note = Fin 0.
Proof. intros Hn. apply stamp_falsy. unfold prop. by rewrite Hn. Qed.

Lemma merge_unfold loc remote :
  mergeLastWriteWins StringToNumber (Some loc) remote =
    if num_gt (stamp StringToNumber remote) (stamp StringToNumber loc)
    then {| winner := Remote; merged := spread2 loc remote |}
    else {| winner := Local; merged := loc |}.
Proof. reflexivity. Qed.

Lemma spread2_remote loc remote k v :
  remote !! k = Some v → spread2 loc remote !! k = Some v.
Proof. intros Hk. unfold spread2. by apply lookup_union_Some_l. Qed.

Lemma spread2_local loc remote k :
  remote !! k = None → spread2 loc remote !! k = loc !! k.
Proof. intros Hk. unfold spread2. by rewrite lookup_union_r. Qed.
End ResolverFacts.

(** C1. The resolver by cases.  Without a local note the remote note wins
    and is the merged note.  With one, the comparison is that of the two
    timestamps as [stamp] reads them (for integer timestamps: the plain
    order on integers): when the remote one is strictly greater the remote
    note wins and the merged note has every property of the remote note and,
    for a property the remote note lacks, what the local note has; in every
    other case, a tie included, the local note wins and is the merged note. *)
Theorem mergeLastWriteWins_cases (StringToNumber : string → jsnum)
    (local : option Note) (remote : Note) :
  match local with
  | None =>
      mergeLastWriteWins StringToNumber None remote
      = {| winner := Remote; merged := remote |}
  | Some loc =>
      let newer := num_gt (stamp StringToNumber remote) (stamp StringToNumber loc) in
      (newer = true →
         mergeLastWriteWins StringToNumber (Some loc) remote
         = {| winner := Remote; merged := spread2 loc remote |}
         ∧ (∀ k v, remote !! k = Some v → spread2 loc remote !! k = Some v)
         ∧ (∀ k, remote !! k = None → spread2 loc remote !! k = loc !! k))
      ∧ (newer = false →
         mergeLastWriteWins StringToNumber (Some loc) remote
         = {| winner := Local; merged := loc |})
      ∧ (∀ l r : Z,
           loc !! "updatedAtMs" = Some (JNum (Fin l)) →
           remote !! "updatedAtMs" = Some (JNum (Fin r)) →
           newer = bool_decide (l < r))
  end.
Proof.
  destruct local as [loc|]; [|reflexivity].
  cbv zeta. split; [|split].
  - intros Hn. rewrite merge_unfold, Hn. split; [reflexivity|]. split.
    + intros k v. apply spread2_remote.
    + intros k. apply spread2_local.
  - intros Hn. rewrite merge_unfold. by rewrite Hn.
  - intros l r Hl Hr. rewrite (stamp_int _ _ _ Hl), (stamp_int _ _ _ Hr). simpl.
    destruct (Z.ltb_spec l r); symmetry.
    + by apply bool_decide_eq_true.
    + apply bool_decide_eq_false. lia.
Qed.

Lemma mergeLastWriteWins_cases_witness :
  num_gt (stamp Fake.StringToNumber (Fake.note "a" 200 "remote a"))
         (stamp Fake.StringToNumber (Fake.note "a" 100 "local a")) = true
  ∧ mergeLastWriteWins Fake.StringToNumber
      (Some (Fake.note "a" 100 "local a")) (Fake.note "a" 200 "remote a")
    = {| winner := Remote;
         merged := spread2 (Fake.note "a" 100 "local a") (Fake.note "a" 200 "remote a") |}.
Proof.
  split; [reflexivity|].
  apply (mergeLastWriteWins_cases Fake.StringToNumber
           (Some (Fake.note "a" 100 "local a")) (Fake.note "a" 200 "remote a")).
  reflexivity.
Defined.

(** C2. For a local and a remote note that both carry an integer
    [updatedAtMs], of one noteId or not, the merged note's [updatedAtMs] is
    the greater of the two, and on a tie the result is the local note, kept
    as it is. *)
Theorem merged_updatedAtMs_max (StringToNumber : string → jsnum)
    (loc remote : Note) (l r : Z) :
  loc !! "updatedAtMs" = Some (JNum (Fin l)) →
  remote !! "updatedAtMs" = Some (JNum (Fin r)) →
  merged (mergeLastWriteWins StringToNumber (Some loc) remote) !! "updatedAtMs"
  = Some (JNum (Fin (Z.max l r)))
  ∧ (l = r →
     mergeLastWriteWins StringToNumber (Some loc) remote
     = {| winner := Local; merged := loc |}).
Proof.
  intros Hl Hr. rewrite merge_unfold.
  rewrite (stamp_int _ _ _ Hl), (stamp_int _ _ _ Hr). simpl.
  destruct (Z.ltb_spec l r) as [Hlt|Hge]; simpl.
  - split; [|lia]. rewrite (spread2_remote _ _ _ _ Hr). do 3 f_equal. lia.
  - split; [|done]. rewrite Hl. do 3 f_equal. lia.
Qed.

Lemma merged_updatedAtMs_max_witness :
  merged (mergeLastWriteWins Fake.StringToNumber
            (Some (Fake.note "c" 300 "local c")) (Fake.note "c" 250 "remote c"))
    !! "updatedAtMs" = Some (JNum (Fin 300)).
Proof.
  apply (merged_updatedAtMs_max Fake.StringToNumber
           (Fake.note "c" 300 "local c") (Fake.note "c" 250 "remote c") 300 250);
    reflexivity.
Defined.

(** C10, as stated, fails on a local note whose timestamp is negative: the
    missing remote timestamp reads as 0, which is greater. *)
Lemma remote_without_stamp_can_win :
  ¬ (∀ (StringToNumber : string → jsnum) (loc remote : Note),
       remote !! "updatedAtMs" = None →
       winner (mergeLastWriteWins StringToNumber (Some loc) remote) = Local).
Proof.
  intros H.
  specialize (H Fake.StringToNumber (Fake.note "a" (-1) "local a")
                {[ "noteId" := JStr "a"; "title" := JStr "remote a" ]} eq_refl).
  discriminate H.
Qed.

(** C10, amended.  With a local note present, a missing or falsy
    [updatedAtMs] on either side is read as 0 before the comparison.  A
    remote note without the field wins exactly when the local timestamp
    reads as a number below 0, so never against a local note whose
    timestamp is missing or a non-negative integer; a local note without
    the field loses to every remote note whose [updatedAtMs] is an integer
    greater than 0. *)
Theorem missing_updatedAtMs_reads_as_zero (StringToNumber : string → jsnum)
    (loc remote : Note) :
  (∀ note : Note, truthy (prop note "updatedAtMs") = false →
                  stamp StringToNumber note = Fin 0)
  ∧ (remote !! "updatedAtMs" = None →
       (winner (mergeLastWriteWins StringToNumber (Some loc) remote) = Remote
        ↔ num_gt (Fin 0) (stamp StringToNumber loc) = true)
       ∧ (loc !! "updatedAtMs" = None →
          mergeLastWriteWins StringToNumber (Some loc) remote
          = {| winner := Local; merged := loc |})
       ∧ (∀ l, loc !! "updatedAtMs" = Some (JNum (Fin l)) → 0 ≤ l →
          mergeLastWriteWins StringToNumber (Some loc) remote
          = {| winner := Local; merged := loc |}))
  ∧ (loc !! "updatedAtMs" = None →
     ∀ r, remote !! "updatedAtMs" = Some (JNum (Fin r)) → 0 < r →
     mergeLastWriteWins StringToNumber (Some loc) remote
     = {| winner := Remote; merged := spread2 loc remote |}).
Proof.
  split; [apply stamp_falsy|]. split.
  - intros Hr. rewrite merge_unfold, (stamp_missing _ _ Hr). split; [|split].
    + destruct (num_gt _ _); simpl; split; congruence.
    + intros Hl. by rewrite (stamp_missing _ _ Hl).
    + intros l Hl Hpos. rewrite (stamp_int _ _ _ Hl). simpl.
      destruct (Z.ltb_spec l 0); [lia|done].
  - intros Hl r Hr Hpos.
    rewrite merge_unfold, (stamp_missing _ _ Hl), (stamp_int _ _ _ Hr). simpl.
    destruct (Z.ltb_spec 0 r); [done|lia].
Qed.

Lemma missing_updatedAtMs_reads_as_zero_witness :
  mergeLastWriteWins Fake.StringToNumber
    (Some {[ "noteId" := JStr "a" ]}) (Fake.note "a" 5 "remote a")
  = {| winner := Remote;
       merged := spread2 {[ "noteId" := JStr "a" ]} (Fake.note "a" 5 "remote a") |}.
Proof.
  apply (proj2 (proj2 (missing_updatedAtMs_reads_as_zero Fake.StringToNumber
           {[ "noteId" := JStr "a" ]} (Fake.note "a" 5 "remote a"))))
    with (r := 5); [reflexivity|reflexivity|lia].
Defined.

(** ** The monad: how a run decomposes *)

Section Runs.
Context {W : Type}.
Implicit Types (st : SyncState W).

Lemma bind_ret {A B} (m : M W A) (k : A → M W B) st st1 a :
  m st = (st1, Ret a) → bind m k st = k a st1.
Proof. intros Hm. unfold bind. by rewrite Hm. Qed.

Lemma bind_throw {A B} (m : M W A) (k : A → M W B) st st1 e :
  m st = (st1, Throw e) → bind m k st = (st1, Throw e).
Proof. intros Hm. unfold bind. by rewrite Hm. Qed.

Lemma bind_inv {A B} (m : M W A) (k : A → M W B) st st' r :
  bind m k st = (st', r) →
  (∃ st1 a, m st = (st1, Ret a) ∧ k a st1 = (st', r))
  ∨ (∃ e, m st = (st', Throw e) ∧ r = Throw e)
  ∨ (m st = (st', OutOfFuel) ∧ r = OutOfFuel).
Proof.
  unfold bind. destruct (m st) as [st1 [a|e|]]; intros Hk.
  - left. eauto.
  - right. left. inversion Hk. subst. eauto.
  - right. right. inversion Hk. by subst.
Qed.

Lemma bind_assoc {A B C} (m : M W A) (k : A → M W B) (h : B → M W C) st :
  bind (bind m k) h st = bind m (λ a, bind (k a) h) st.
Proof. unfold bind. by destruct (m st) as [st1 [a|e|]]. Qed.

Lemma bind_ext {A B} (m : M W A) (k k' : A → M W B) st :
  (∀ a s, k a s = k' a s) → bind m k st = bind m k' st.
Proof. intros Hk. unfold bind. by destruct (m st) as [st1 [a|e|]]. Qed.

Lemma for_of_app {A S} (l1 l2 : list A) (body : A → S → M W S) acc st :
  for_of (l1 ++ l2) body acc st = bind (for_of l1 body acc) (for_of l2 body) st.
Proof.
  revert acc st. induction l1 as [|x l1 IH]; intros acc st; simpl.
  - reflexivity.
  - unfold bind in *.
    destruct (body x acc st) as [st1 [a|e|]]; [apply IH|done..].
Qed.

Lemma as_key_run v k st : to_key v = Some k → as_key v st = (st, Ret k).
Proof. intros Hk. unfold as_key. by rewrite Hk. Qed.
End Runs.

(** ** Pull: removals in the change feed *)

(** C8. A change entry whose [removed] flag is set or whose file is trashed
    ends its turn of the loop at once: the turn returns the counter it was
    given and leaves the database (notes, outbox, mappings, cursor), the
    remote side and the request log as they were, so the loop goes on with
    the next entry and runs as if the entry were not in the page. *)
Theorem pullChange_skips_removals {W : Type} (StringToNumber : string → jsnum)
    (JSON_parse : string → option parsed) (api : DriveApi W)
    (ch : Change) (pulled : nat) (st : SyncState W) :
  is_removal ch = true →
  pullChange StringToNumber JSON_parse api ch pulled st = (st, Ret pulled)
  ∧ ∀ before after,
      for_of (before ++ ch :: after) (pullChange StringToNumber JSON_parse api) pulled st
      = for_of (before ++ after) (pullChange StringToNumber JSON_parse api) pulled st.
Proof.
  intros Hrm.
  assert (Hskip : ∀ c n s, is_removal c = true →
            pullChange StringToNumber JSON_parse api c n s = (s, Ret n)).
  { intros c n s Hc. unfold pullChange, is_removal in *.
    destruct (nonempty (fileId c)); [|done]. by rewrite Hc. }
  split; [by apply Hskip|].
  intros before after. rewrite !for_of_app. unfold bind.
  destruct (for_of before _ pulled st) as [st1 [n|e|]]; [|done..].
  simpl. by rewrite (bind_ret _ _ _ _ _ (Hskip ch n st1 Hrm)).
Qed.

Lemma pullChange_skips_removals_witness :
  pullChange Fake.StringToNumber Fake.JSON_parse Fake.api
    {| fileId := Some "f1"; removed := true; file := None |} 7%nat
    (Fake.start Fake.emptyDb Fake.emptyDrive)
  = (Fake.start Fake.emptyDb Fake.emptyDrive, Ret 7%nat).
Proof.
  apply (pullChange_skips_removals Fake.StringToNumber Fake.JSON_parse Fake.api
           {| fileId := Some "f1"; removed := true; file := None |} 7%nat
           (Fake.start Fake.emptyDb Fake.emptyDrive)).
  reflexivity.
Defined.

(** ** Push: one note *)

Section PushFacts.
Context {W : Type}.
Variable api : DriveApi W.
Implicit Types (st : SyncState W).

Lemma findNoteFileByNoteId_db noteId st st1 r :
  findNoteFileByNoteId api noteId st = (st1, r) → db st1 = db st.
Proof.
  unfold findNoteFileByNoteId, call, throw.
  destruct noteId; try (intros [= <- _]; reflexivity).
  destruct (queryNoteFile api s (world st)). by intros [= <- _].
Qed.

(** How the file id of a note is resolved: from the stored mapping when
    it has a file id, and only otherwise by the lookup by tag. *)
Lemma resolveFileId_run noteId k st :
  to_key noteId = Some k →
  resolveFileId api noteId st =
    match mappedFileId (driveMap (db st) !! k) with
    | Some f => (st, Ret (Some f))
    | None =>
        match findNoteFileByNoteId api noteId st with
        | (st1, Ret found) => (st1, Ret (nonempty found))
        | (st1, Throw e) => (st1, Throw e)
        | (st1, OutOfFuel) => (st1, OutOfFuel)
        end
    end.
Proof.
  intros Hk. unfold resolveFileId, getDriveMap.
  rewrite (bind_ret _ _ _ _ _ (bind_ret _ _ _ _ _ (as_key_run _ _ st Hk))).
  destruct (mappedFileId (driveMap (db st) !! k)); [reflexivity|].
  unfold bind, ret. by destruct (findNoteFileByNoteId api noteId st) as [st1 [?|?|]].
Qed.

Lemma resolveFileId_db noteId k st st1 r :
  to_key noteId = Some k → resolveFileId api noteId st = (st1, r) → db st1 = db st.
Proof.
  intros Hk. rewrite (resolveFileId_run _ _ _ Hk).
  destruct (mappedFileId _); [by intros [= <- _]|].
  destruct (findNoteFileByNoteId api noteId st) as [st2 o] eqn:Hf.
  apply findNoteFileByNoteId_db in Hf.
  destruct o; intros [= <- _]; done.
Qed.

Lemma upload_persist k noteId c f st :
  to_key noteId = Some k →
  bind (call c f)
       (λ m, putDriveMap noteId
               {| driveFileId := meta_id m; md5 := md5Checksum m |}) st
  = persist k c st (f (world st)).
Proof.
  intros Hk. unfold bind, call, persist, putDriveMap.
  destruct (f (world st)) as [w [meta|e]]; simpl; [|done].
  unfold bind. rewrite (as_key_run _ _ _ Hk). reflexivity.
Qed.

Lemma findNoteFileByNoteId_trace noteId st st1 r :
  findNoteFileByNoteId api noteId st = (st1, r) →
  trace st1 = trace st ++ match noteId with JStr s => [FindNoteFile s] | _ => [] end.
Proof.
  unfold findNoteFileByNoteId, call, throw.
  destruct noteId; try (intros [= <- _]; by rewrite app_nil_r).
  destruct (queryNoteFile api s (world st)). by intros [= <- _].
Qed.

Lemma pushUpsert_run note k st :
  to_key (prop note "noteId") = Some k →
  pushUpsert api note st =
    match resolveFileId api (prop note "noteId") st with
    | (st1, Ret (Some f)) =>
        persist k (UpdateFile f note (prop note "noteId")) st1
          (updateJsonFileMultipart api f note (prop note "noteId") (world st1))
    | (st1, Ret None) =>
        persist k (CreateFile (noteFileName (prop note "noteId")) note (prop note "noteId"))
          st1
          (createJsonFileMultipart api (noteFileName (prop note "noteId")) note
             (prop note "noteId") (world st1))
    | (st1, Throw e) => (st1, Throw e)
    | (st1, OutOfFuel) => (st1, OutOfFuel)
    end.
Proof.
  intros Hk. unfold pushUpsert. unfold bind at 1.
  destruct (resolveFileId api (prop note "noteId") st) as [st1 [[f|]|e|]]; try done.
  - by apply upload_persist.
  - by apply upload_persist.
Qed.

Lemma pushDelete_run noteId k st :
  to_key noteId = Some k →
  pushDelete api noteId st =
    match resolveFileId api noteId st with
    | (st1, Ret (Some f)) => unlink api k f st1
    | (st1, Ret None) =>
        ({| db := set_driveMap (delete k) (db st1);
            world := world st1; trace := trace st1 |}, Ret tt)
    | (st1, Throw e) => (st1, Throw e)
    | (st1, OutOfFuel) => (st1, OutOfFuel)
    end.
Proof.
  intros Hk. unfold pushDelete. unfold bind at 1.
  destruct (resolveFileId api noteId st) as [st1 [[f|]|e|]]; try done.
  - unfold bind, try_catch, call, unlink, deleteDriveMap.
    destruct (deleteFile api f (world st1)) as [w [[]|e]]; simpl.
    + unfold bind. by rewrite (as_key_run _ _ _ Hk).
    + destruct (is_not_found e); simpl; [|done].
      unfold bind. by rewrite (as_key_run _ _ _ Hk).
  - unfold bind, ret, deleteDriveMap. unfold bind. by rewrite (as_key_run _ _ _ Hk).
Qed.
End PushFacts.

(** No request of the wrong kind is in a short, explicit log. *)
Ltac not_in_log :=
  let H := fresh "Hin" in
  intros H;
  repeat (apply elem_of_cons in H as [H|H]; [discriminate H|]);
  by apply elem_of_nil in H.

(** C5. The upsert of a note (present, not tombstoned: the case in which
    pushOutbox calls pushUpsert).  When the stored mapping has a file id,
    or the lookup by tag recovers one, exactly an update of that file is
    sent; a create is sent only when the mapping has none and the lookup by
    tag finds no file.  In both cases the id and checksum the call answers
    with are written to the mapping of the note once the call has answered,
    and nothing is written when it throws ([persist]). *)
Theorem pushUpsert_create_or_update {W : Type} (api : DriveApi W)
    (note : Note) (k : idbkey) (st : SyncState W) :
  to_key (prop note "noteId") = Some k →
  let noteId := prop note "noteId" in
  let known := mappedFileId (driveMap (db st) !! k) in
  (∀ f, known = Some f →
     pushUpsert api note st
     = persist k (UpdateFile f note noteId) st
         (updateJsonFileMultipart api f note noteId (world st)))
  ∧ (∀ st1 f, known = None → recovers api noteId st st1 f →
     db st1 = db st
     ∧ pushUpsert api note st
       = persist k (UpdateFile f note noteId) st1
           (updateJsonFileMultipart api f note noteId (world st1)))
  ∧ (∀ st1, known = None → finds_nothing api noteId st st1 →
     db st1 = db st
     ∧ pushUpsert api note st
       = persist k (CreateFile (noteFileName noteId) note noteId) st1
           (createJsonFileMultipart api (noteFileName noteId) note noteId (world st1)))
  ∧ (∀ st' r name json tag,
       pushUpsert api note st = (st', r) →
       CreateFile name json tag ∈ drop (length (trace st)) (trace st') →
       known = None ∧ ∃ st1, finds_nothing api noteId st st1).
Proof.
  intros Hk noteId known.
  pose proof (pushUpsert_run api note k st Hk) as Hrun.
  pose proof (resolveFileId_run api noteId k st Hk) as Hres.
  fold noteId known in Hrun, Hres.
  split; [|split; [|split]].
  - intros f Hf. rewrite Hf in Hres. by rewrite Hrun, Hres.
  - intros st1 f Hnone (found & Hfind & Hfound). rewrite Hnone, Hfind, Hfound in Hres.
    split; [by eapply findNoteFileByNoteId_db|]. by rewrite Hrun, Hres.
  - intros st1 Hnone (found & Hfind & Hfound). rewrite Hnone, Hfind, Hfound in Hres.
    split; [by eapply findNoteFileByNoteId_db|]. by rewrite Hrun, Hres.
  - intros st' r name json tag. rewrite Hrun, Hres.
    destruct known as [f|] eqn:Hknown.
    + unfold persist. destruct (updateJsonFileMultipart _ _ _ _ _).2;
        intros [= <- _]; simpl; rewrite drop_app_length; not_in_log.
    + destruct (findNoteFileByNoteId api noteId st) as [st1 o] eqn:Hfind.
      pose proof (findNoteFileByNoteId_trace _ _ _ _ _ Hfind) as Htr.
      destruct o as [found| |].
      * destruct (nonempty found) as [f|] eqn:Hfound.
        -- unfold persist. destruct (updateJsonFileMultipart _ _ _ _ _).2;
             intros [= <- _]; simpl; rewrite Htr, <- app_assoc, drop_app_length;
             destruct noteId; not_in_log.
        -- intros _ _. split; [done|]. exists st1, found. done.
      * intros [= <- _]. rewrite Htr, drop_app_length. destruct noteId; not_in_log.
      * intros [= <- _]. rewrite Htr, drop_app_length. destruct noteId; not_in_log.
Qed.

(** The delete of a note, case by case.  The file id comes from the stored
    mapping, else from the lookup by tag.  With a file id, a delete of that
    file is sent: when it answers, or throws a message that passes the test
    of the catch block ([is_not_found]: it contains "File not found" or
    "404"), the mapping of the note is removed and pushDelete returns; an
    Error with any other message is rethrown and the database is as it was
    ([unlink]).  An Error of the lookup by tag is thrown on in the same
    way.  Without any file id no delete is sent and the mapping of the note
    is removed. *)
Theorem pushDelete_cases {W : Type} (api : DriveApi W)
    (noteId : jsval) (k : idbkey) (st : SyncState W) :
  to_key noteId = Some k →
  let known := mappedFileId (driveMap (db st) !! k) in
  (∀ f, known = Some f → pushDelete api noteId st = unlink api k f st)
  ∧ (∀ st1 f, known = None → recovers api noteId st st1 f →
     db st1 = db st ∧ pushDelete api noteId st = unlink api k f st1)
  ∧ (∀ st1, known = None → finds_nothing api noteId st st1 →
     pushDelete api noteId st
     = ({| db := set_driveMap (delete k) (db st);
           world := world st1; trace := trace st1 |}, Ret tt))
  ∧ (∀ st1 e, known = None →
     findNoteFileByNoteId api noteId st = (st1, Throw e) →
     db st1 = db st ∧ pushDelete api noteId st = (st1, Throw e))
  ∧ (∀ st' r, pushDelete api noteId st = (st', r) →
     match r with
     | Ret _ => db st' = set_driveMap (delete k) (db st)
     | _ => db st' = db st
     end).
Proof.
  intros Hk known.
  pose proof (pushDelete_run api noteId k st Hk) as Hrun.
  pose proof (resolveFileId_run api noteId k st Hk) as Hres.
  fold known in Hres.
  split; [|split; [|split; [|split]]].
  - intros f Hf. rewrite Hf in Hres. by rewrite Hrun, Hres.
  - intros st1 f Hnone (found & Hfind & Hfound). rewrite Hnone, Hfind, Hfound in Hres.
    split; [by eapply findNoteFileByNoteId_db|]. by rewrite Hrun, Hres.
  - intros st1 Hnone (found & Hfind & Hfound). rewrite Hnone, Hfind, Hfound in Hres.
    rewrite Hrun, Hres. by rewrite (findNoteFileByNoteId_db _ _ _ _ _ Hfind).
  - intros st1 e Hnone Hfind. rewrite Hnone, Hfind in Hres.
    split; [by eapply findNoteFileByNoteId_db|]. by rewrite Hrun, Hres.
  - intros st' r. rewrite Hrun.
    destruct (resolveFileId api noteId st) as [st1 o] eqn:Hres'.
    pose proof (resolveFileId_db _ _ _ _ _ _ Hk Hres') as Hdb.
    destruct o as [[f|]|e|].
    + unfold unlink. destruct (deleteFile api f (world st1)).2 as [|e];
        [|destruct (is_not_found e)]; intros [= <- <-]; simpl; by rewrite Hdb.
    + intros [= <- <-]. simpl. by rewrite Hdb.
    + by intros [= <- <-].
    + by intros [= <- <-].
Qed.

(** C6. pushDelete does not rethrow every failure other than "file not
    found".  Its catch block looks for "File not found" or "404" anywhere
    in the message, and the message of a refused delete has the file id in
    it: when Drive refuses, for lack of permission, to delete a file whose
    id contains 404, pushDelete takes the file for gone, returns and removes
    the mapping of the note, although the file is still on Drive.  The same
    refusal for a file whose id does not contain 404 is rethrown, with the
    mapping kept. *)
Theorem pushDelete_swallows_a_refusal :
  let st f := Fake.start (Fake.withMapping "b" f Fake.emptyDb) (driveRefusing f) in
  pushDelete Fake.api (JStr "b") (st "1x404y")
  = ({| db := set_driveMap (delete (KStr "b")) (db (st "1x404y"));
        world := driveRefusing "1x404y"; trace := [DeleteFile "1x404y"] |}, Ret tt)
  ∧ driveMap (db (pushDelete Fake.api (JStr "b") (st "1x404y")).1) !! KStr "b" = None
  ∧ pushDelete Fake.api (JStr "b") (st "f1")
    = ({| db := db (st "f1"); world := driveRefusing "f1"; trace := [DeleteFile "f1"] |},
       Throw (refusal "f1")).
Proof.
  intros st. split_and!; vm_compute; reflexivity.
Qed.

(** ** What a computation leaves alone *)

Section Keeps.
Context {W X : Type} (part : Db → X).
Implicit Types (st : SyncState W).

Lemma keeps_ret {A} (a : A) : keeps part (ret a : M W A).
Proof. by intros st st' r [= <- _]. Qed.

Lemma keeps_throw {A} e : keeps part (@throw W A e).
Proof. by intros st st' r [= <- _]. Qed.

Lemma keeps_bind {A B} (m : M W A) (k : A → M W B) :
  keeps part m → (∀ a, keeps part (k a)) → keeps part (bind m k).
Proof.
  intros Hm Hk st st' r Hrun.
  apply bind_inv in Hrun as [(st1 & a & Hm1 & Hk1)|[(e & Hm1 & _)|(Hm1 & _)]].
  - rewrite (Hk _ _ _ _ Hk1). by eapply Hm.
  - by eapply Hm.
  - by eapply Hm.
Qed.

Lemma keeps_try_catch {A} (m : M W A) h :
  keeps part m → (∀ e, keeps part (h e)) → keeps part (try_catch m h).
Proof.
  intros Hm Hh st st' r. unfold try_catch.
  destruct (m st) as [st1 [a|e|]] eqn:Hm1.
  - intros [= <- _]. by eapply Hm.
  - intros Hrun. rewrite (Hh _ _ _ _ Hrun). by eapply Hm.
  - intros [= <- _]. by eapply Hm.
Qed.

Lemma keeps_call {A} c (f : W → W * reply A) : keeps part (call c f).
Proof. intros st st' r. unfold call. destruct (f (world st)). by intros [= <- _]. Qed.

Lemma keeps_readDb {A} (f : Db → A) : keeps part (@readDb W A f).
Proof. by intros st st' r [= <- _]. Qed.

Lemma keeps_writeDb (f : Db → Db) :
  (∀ d, part (f d) = part d) → keeps part (@writeDb W f).
Proof. intros Hf st st' r [= <- _]. apply Hf. Qed.

Lemma keeps_as_key v : keeps part (@as_key W v).
Proof. unfold as_key. destruct (to_key v); [apply keeps_ret|apply keeps_throw]. Qed.

Lemma keeps_for_of {A S} (l : list A) (body : A → S → M W S) :
  (∀ x acc, keeps part (body x acc)) → ∀ acc, keeps part (for_of l body acc).
Proof.
  intros Hbody. induction l as [|x l IH]; intros acc; simpl.
  - apply keeps_ret.
  - apply keeps_bind; [apply Hbody|apply IH].
Qed.
End Keeps.

(** Goes through a computation built from the combinators above, leaving
    the goals about what the database writes do. *)
Ltac keeps_step :=
  match goal with
  | |- keeps _ (bind _ _) => apply keeps_bind; [|intros ?]
  | |- keeps _ (ret _) => apply keeps_ret
  | |- keeps _ (throw _) => apply keeps_throw
  | |- keeps _ (call _ _) => apply keeps_call
  | |- keeps _ (readDb _) => apply keeps_readDb
  | |- keeps _ (as_key _) => apply keeps_as_key
  | |- keeps _ (writeDb _) => apply keeps_writeDb; intros ?
  | |- keeps _ (try_catch _ _) => apply keeps_try_catch; [|intros ?]
  | |- keeps _ (let _ := _ in _) => cbv zeta
  | |- keeps _ (match ?x with _ => _ end) => destruct x
  | |- keeps _ (if ?x then _ else _) => destruct x
  end.

(** ** Push: the outbox *)

Lemma listOps_elem (d : Db) (o : Op) : o ∈ listOps d ↔ outbox d !! o.1 = Some o.2.
Proof.
  unfold listOps. rewrite merge_sort_Permutation.
  destruct o as [i x]. apply elem_of_map_to_list.
Qed.


#[global] Instance op_le_total : Total op_le.
Proof.
  intros [i x] [j y]. unfold op_le, op_leb. simpl.
  destruct (Z.ltb_spec (queuedAtMs x) (queuedAtMs y)); [by left|].
  destruct (Z.ltb_spec (queuedAtMs y) (queuedAtMs x)); [by right|].
  assert (queuedAtMs x = queuedAtMs y) as -> by lia. rewrite Z.eqb_refl. simpl.
  destruct (String.leb_total i j) as [->| ->]; [by left|by right].
Qed.

Lemma op_le_iff (a b : Op) :
  op_le a b ↔
  queuedAtMs a.2 < queuedAtMs b.2
  ∨ (queuedAtMs a.2 = queuedAtMs b.2 ∧ String.le a.1 b.1).
Proof.
  unfold op_le, op_leb, String.le.
  rewrite orb_True, andb_True, !Is_true_true, Z.ltb_lt, Z.eqb_eq. reflexivity.
Qed.

#[global] Instance op_le_trans : Transitive op_le.
Proof.
  intros a b c. rewrite !op_le_iff. intros [Hab|[Hab Hs]] [Hbc|[Hbc Ht]].
  - left. lia.
  - left. lia.
  - left. lia.
  - right. split; [lia|]. by etrans.
Qed.



Section OutboxFacts.
Context {W : Type}.
Variable api : DriveApi W.
Implicit Types (st : SyncState W) (op : Op).

Lemma pushOp_split op pushed st :
  pushOp api op pushed st
  = bind (opEffect api op)
      (λ counted : bool,
         deleteOp (opId op);;; ret (if counted then S pushed else pushed)) st.
Proof.
  unfold pushOp, opEffect. destruct (type op.2).
  - rewrite bind_assoc. apply bind_ext. intros [note|] s; [|done].
    destruct (truthy _); by rewrite bind_assoc.
  - by rewrite bind_assoc.
Qed.

Lemma opEffect_keeps_outbox op : keeps outbox (opEffect api op).
Proof.
  unfold opEffect, getNote, pushDelete, pushUpsert, resolveFileId,
    findNoteFileByNoteId, getDriveMap, putDriveMap, deleteDriveMap.
  repeat keeps_step; reflexivity.
Qed.

(** A turn of the loop removes its operation when, and only when, it got
    to the end without throwing. *)
Lemma pushOp_outbox op pushed st st' r :
  pushOp api op pushed st = (st', r) →
  match r with
  | Ret _ => outbox (db st') = delete (opId op) (outbox (db st))
  | _ => outbox (db st') = outbox (db st)
  end.
Proof.
  rewrite pushOp_split. unfold bind at 1.
  destruct (opEffect api op st) as [st1 [b|e|]] eqn:Heff;
    pose proof (opEffect_keeps_outbox _ _ _ _ Heff) as Hkeep.
  - intros [= <- <-]. simpl. by rewrite Hkeep.
  - by intros [= <- <-].
  - by intros [= <- <-].
Qed.

Lemma for_of_pushOp_outbox (ops : list Op) pushed st st' n :
  for_of ops (pushOp api) pushed st = (st', Ret n) →
  ∀ i, outbox (db st') !! i
       = if decide (i ∈ opId <$> ops) then None else outbox (db st) !! i.
Proof.
  revert pushed st. induction ops as [|op ops IH]; intros pushed st; cbn [for_of].
  - intros [= <- _] i. rewrite decide_False; [done|]. apply not_elem_of_nil.
  - intros Hrun i.
    apply bind_inv in Hrun as [(st1 & m & Hop & Hrest)|[(e & _ & [=])|(_ & [=])]].
    apply pushOp_outbox in Hop. rewrite (IH _ _ Hrest i), Hop, fmap_cons.
    destruct (decide (i ∈ opId <$> ops)) as [Hin|Hnin].
    + rewrite decide_True; [done|]. by right.
    + destruct (decide (i = opId op)) as [->|Hne].
      * rewrite lookup_delete_eq, decide_True; [done|]. by left.
      * rewrite lookup_delete_ne, decide_False; [done| |done].
        by intros [?|?]%elem_of_cons.
Qed.
End OutboxFacts.


(** ** Pull: the cursor *)

Section CursorFacts.
Context {W : Type}.
Variable StringToNumber : string → jsnum.
Variable JSON_parse : string → option parsed.
Variable api : DriveApi W.
Implicit Types (st : SyncState W).

Lemma pullChange_keeps_syncMeta ch pulled :
  keeps syncMeta (pullChange StringToNumber JSON_parse api ch pulled).
Proof.
  unfold pullChange, member, getNote, putNote, getDriveMap, putDriveMap.
  repeat keeps_step; reflexivity.
Qed.

(** The page loop writes the cursor in one place only, right before it
    returns: a run that does not return has not written it. *)
Lemma pullPages_keeps_cursor fuel cursor pulled st st' r :
  pullPages StringToNumber JSON_parse api fuel cursor pulled st = (st', r) →
  (∀ n, r ≠ Ret n) →
  syncMeta (db st') = syncMeta (db st).
Proof.
  revert cursor pulled st.
  induction fuel as [|fuel IH]; intros cursor pulled st; cbn [pullPages].
  - by intros [= <- _].
  - intros Hrun Hfail.
    apply bind_inv in Hrun as [(st1 & data & Hlist & Hrun)|[(e & Hlist & _)|(Hlist & _)]];
      pose proof (keeps_call syncMeta _ _ _ _ _ Hlist) as Hk1; [|done..].
    apply bind_inv in Hrun as [(st2 & n & Hpage & Hrun)|[(e & Hpage & _)|(Hpage & _)]];
      pose proof (keeps_for_of syncMeta _ _ pullChange_keeps_syncMeta _ _ _ _ Hpage)
        as Hk2; [|congruence..].
    destruct (nonempty (nextPageToken data)) as [next|].
    + rewrite (IH _ _ _ Hrun Hfail). congruence.
    + exfalso.
      apply bind_inv in Hrun as [(st3 & [] & _ & [= _ <-])|[(e & Hset & _)|(Hset & _)]].
      * by eapply Hfail.
      * destruct (nonempty (newStartPageToken data)); discriminate Hset.
      * destruct (nonempty (newStartPageToken data)); discriminate Hset.
Qed.

(** With a cursor stored, ensureCursor hands it out and does nothing
    else. *)
Lemma ensureCursor_stored st c :
  nonempty (syncMeta (db st) !! cursorKey) = Some c →
  ensureCursor StringToNumber JSON_parse api st = (st, Ret c).
Proof. intros Hc. unfold ensureCursor, bind, getMeta, readDb. by rewrite Hc. Qed.
End CursorFacts.

(** C7. An incremental pull (a cursor [c] is stored) that ends in an Error,
    wherever the Error comes from, leaves the syncMeta store as it found
    it: the stored cursor is still [c], the token of the first page of the
    failed run, and not a later one.  The failed run was the page loop
    started from [c], and a retry in the state it left is again the page
    loop started from [c], so every change of the failed run is listed
    again. *)
Theorem failed_pull_keeps_cursor {W : Type} (StringToNumber : string → jsnum)
    (JSON_parse : string → option parsed) (api : DriveApi W)
    (fuel : nat) (st st' : SyncState W) (c e : string) :
  nonempty (syncMeta (db st) !! cursorKey) = Some c →
  pullChanges StringToNumber JSON_parse api fuel st = (st', Throw e) →
  syncMeta (db st') = syncMeta (db st)
  ∧ pullChanges StringToNumber JSON_parse api fuel st
    = pullPages StringToNumber JSON_parse api fuel c 0%nat st
  ∧ ∀ fuel',
      pullChanges StringToNumber JSON_parse api fuel' st'
      = pullPages StringToNumber JSON_parse api fuel' c 0%nat st'.
Proof.
  intros Hc Hrun.
  assert (Hstart : ∀ f s, nonempty (syncMeta (db s) !! cursorKey) = Some c →
            pullChanges StringToNumber JSON_parse api f s
            = pullPages StringToNumber JSON_parse api f c 0%nat s).
  { intros f s Hs. unfold pullChanges.
    by rewrite (bind_ret _ _ _ _ _ (ensureCursor_stored _ _ _ _ _ Hs)). }
  rewrite (Hstart _ _ Hc) in Hrun.
  assert (Hmeta : syncMeta (db st') = syncMeta (db st)).
  { by eapply pullPages_keeps_cursor. }
  split; [done|]. split; [by apply Hstart|].
  intros fuel'. apply Hstart. by rewrite Hmeta.
Qed.

(** ** Pull: the mapping of a discovered file *)

Lemma prop_spread2_remote (loc remote : Note) (key : string) (k : idbkey) :
  to_key (prop remote key) = Some k → prop (spread2 loc remote) key = prop remote key.
Proof.
  unfold prop. destruct (remote !! key) as [v|] eqn:Hv; [|done].
  intros _. by rewrite (spread2_remote _ _ _ _ Hv).
Qed.

Lemma merged_noteId (StringToNumber : string → jsnum) (local : option Note)
    (remote : Note) (k : idbkey) :
  to_key (prop remote "noteId") = Some k →
  winner (mergeLastWriteWins StringToNumber local remote) = Remote →
  to_key (prop (merged (mergeLastWriteWins StringToNumber local remote)) "noteId") = Some k.
Proof.
  intros Hk. destruct local as [loc|]; [|done].
  rewrite merge_unfold. destruct (num_gt _ _); [|done].
  intros _. simpl. by rewrite (prop_spread2_remote _ _ _ _ Hk).
Qed.

Section MappingFacts.
Context {W : Type}.
Variable StringToNumber : string → jsnum.
Variable JSON_parse : string → option parsed.
Variable api : DriveApi W.
Implicit Types (st : SyncState W).

(** The last statement of both loop bodies. *)
Lemma ensure_mapping rid k file st :
  to_key rid = Some k →
  ∃ st',
    bind (getDriveMap rid)
      (λ mapping,
         match mappedFileId mapping with
         | None => putDriveMap rid {| driveFileId := file; md5 := None |}
         | Some _ => ret tt
         end) st = (st', Ret tt)
    ∧ driveMap (db st') !! k = mappingAfter file (driveMap (db st) !! k).
Proof.
  intros Hk. unfold getDriveMap, putDriveMap, mappingAfter.
  rewrite bind_assoc, (bind_ret _ _ _ _ _ (as_key_run _ _ st Hk)).
  unfold bind at 1, readDb.
  destruct (mappedFileId (driveMap (db st) !! k)) eqn:Hm.
  - eexists. split; [reflexivity|]. done.
  - rewrite (bind_ret _ _ _ _ _ (as_key_run _ _ st Hk)).
    eexists. split; [reflexivity|]. simpl. by rewrite lookup_insert_eq.
Qed.

(** The write of the merged note, when the remote note wins. *)
Lemma apply_merged {A} (yes no : A) local remote k st :
  to_key (prop remote "noteId") = Some k →
  ∃ st' a,
    match winner (mergeLastWriteWins StringToNumber local remote) with
    | Remote =>
        putNote (merged (mergeLastWriteWins StringToNumber local remote));;; ret yes
    | Local => ret no
    end st = (st', Ret a)
    ∧ driveMap (db st') = driveMap (db st).
Proof.
  intros Hk. destruct (winner _) eqn:Hw.
  - by exists st, no.
  - unfold putNote.
    rewrite bind_assoc, (bind_ret _ _ _ _ _ (as_key_run _ _ st (merged_noteId _ _ _ _ Hk Hw))).
    eexists _, yes. split; reflexivity.
Qed.

Lemma bootstrapFile_mapping f raw remote k st w :
  is_note_props (default ∅ (f_appProperties f)) = true →
  downloadFile api (f_id f) (world st) = (w, Ok raw) →
  JSON_parse raw = Some (PObj remote) →
  to_key (prop remote "noteId") = Some k →
  ∃ st',
    bootstrapFile StringToNumber JSON_parse api f tt st = (st', Ret tt)
    ∧ driveMap (db st') !! k = mappingAfter (f_id f) (driveMap (db st) !! k).
Proof.
  intros Hprops Hdl Hparse Hk. unfold bootstrapFile. rewrite Hprops. cbn [negb].
  unfold bind at 1, call. rewrite Hdl, Hparse. cbn [member].
  unfold bind at 1, ret at 1.
  set (st1 := {| db := db st; world := w; trace := _ |}).
  unfold getNote. rewrite bind_assoc, (bind_ret _ _ _ _ _ (as_key_run _ _ st1 Hk)).
  unfold bind at 1, readDb. cbv zeta. cbn [fields].
  destruct (apply_merged tt tt (notes (db st1) !! k) remote k st1 Hk)
    as (st2 & [] & Hput & Hmap).
  assert (Hput' :
    match winner (mergeLastWriteWins StringToNumber (notes (db st1) !! k) remote) with
    | Remote => putNote (merged (mergeLastWriteWins StringToNumber (notes (db st1) !! k) remote))
    | Local => ret tt
    end st1 = (st2, Ret tt)).
  { destruct (winner _); [done|]. revert Hput. unfold bind.
    by destruct (putNote _ st1) as [? [[]|?|]]. }
  rewrite (bind_ret _ _ _ _ _ Hput').
  destruct (ensure_mapping (prop remote "noteId") k (f_id f) st2 Hk) as (st' & Hrun & Hres).
  exists st'. split; [done|]. by rewrite Hres, Hmap.
Qed.

Lemma pullChange_mapping ch fid pulled raw remote k st w :
  nonempty (fileId ch) = Some fid →
  is_removal ch = false →
  is_note_props (default ∅ (file ch ≫= appProperties)) = true →
  downloadFile api fid (world st) = (w, Ok raw) →
  JSON_parse raw = Some (PObj remote) →
  to_key (prop remote "noteId") = Some k →
  ∃ st' n,
    pullChange StringToNumber JSON_parse api ch pulled st = (st', Ret n)
    ∧ driveMap (db st') !! k = mappingAfter fid (driveMap (db st) !! k).
Proof.
  intros Hfile Hrm Hprops Hdl Hparse Hk. unfold pullChange, is_removal in *.
  rewrite Hfile, Hrm, Hprops. cbn [negb].
  unfold bind at 1, call. rewrite Hdl, Hparse. cbn [member].
  unfold bind at 1, ret at 1.
  set (st1 := {| db := db st; world := w; trace := _ |}).
  unfold getNote. rewrite bind_assoc, (bind_ret _ _ _ _ _ (as_key_run _ _ st1 Hk)).
  unfold bind at 1, readDb. cbv zeta. cbn [fields].
  destruct (apply_merged (S pulled) pulled (notes (db st1) !! k) remote k st1 Hk)
    as (st2 & n & Hput & Hmap).
  rewrite (bind_ret _ _ _ _ _ Hput).
  destruct (ensure_mapping (prop remote "noteId") k fid st2 Hk) as (st' & Hrun & Hres).
  exists st', n. split; [|by rewrite Hres, Hmap].
  rewrite <- (bind_assoc (getDriveMap _) _ (λ _, ret n)).
  by rewrite (bind_ret _ _ _ _ _ Hrun).
Qed.
End MappingFacts.

(** C9, as stated, fails when the note already has a mapping with another
    file id: the file "f1" that holds note "b" is discovered, by the
    bootstrap listing and by the change feed alike, and the mapping of "b"
    still points at "old-file" afterwards. *)
Lemma existing_mapping_not_repointed :
  let stored := Fake.withMapping "b" "old-file" Fake.emptyDb in
  let bootstrap :=
    pullChanges Fake.StringToNumber Fake.JSON_parse Fake.api 2
      (Fake.start stored Fake.driveWithB) in
  let incremental :=
    pullChanges Fake.StringToNumber Fake.JSON_parse Fake.api 2
      (Fake.start (Fake.withCursor "t0" stored) Fake.driveWithB) in
  (DownloadFile "f1" ∈ trace bootstrap.1
   ∧ driveFileId <$> driveMap (db bootstrap.1) !! KStr "b" = Some "old-file"
   ∧ driveFileId <$> driveMap (db bootstrap.1) !! KStr "b" ≠ Some "f1")
  ∧ (DownloadFile "f1" ∈ trace incremental.1
     ∧ driveFileId <$> driveMap (db incremental.1) !! KStr "b" = Some "old-file"
     ∧ driveFileId <$> driveMap (db incremental.1) !! KStr "b" ≠ Some "f1").
Proof.
  cbv zeta. repeat split; try (vm_compute; reflexivity); try (vm_compute; discriminate).
  - vm_compute. right. left.
  - vm_compute. right. left.
Qed.

(** C9, amended.  A file discovered by a pull, by the bootstrap listing or
    by a change entry, whose body downloads and parses to a note with a
    valid [noteId]: the turn of the loop returns, and afterwards the
    mapping of that noteId is the one it had if that one has a file id (it
    is not re-pointed), and otherwise a fresh mapping to the discovered
    file. *)
Theorem discovered_file_mapping {W : Type} (StringToNumber : string → jsnum)
    (JSON_parse : string → option parsed) (api : DriveApi W)
    (discovered raw : string) (remote : Note) (k : idbkey)
    (st : SyncState W) (w : W) :
  downloadFile api discovered (world st) = (w, Ok raw) →
  JSON_parse raw = Some (PObj remote) →
  to_key (prop remote "noteId") = Some k →
  let before := driveMap (db st) !! k in
  (∀ f, f_id f = discovered →
        is_note_props (default ∅ (f_appProperties f)) = true →
        ∃ st', bootstrapFile StringToNumber JSON_parse api f tt st = (st', Ret tt)
               ∧ driveMap (db st') !! k = mappingAfter discovered before)
  ∧ (∀ ch pulled,
        nonempty (fileId ch) = Some discovered →
        is_removal ch = false →
        is_note_props (default ∅ (file ch ≫= appProperties)) = true →
        ∃ st' n, pullChange StringToNumber JSON_parse api ch pulled st = (st', Ret n)
                 ∧ driveMap (db st') !! k = mappingAfter discovered before)
  ∧ (mappedFileId before = None →
     mappingAfter discovered before = Some {| driveFileId := discovered; md5 := None |})
  ∧ (∀ f, mappedFileId before = Some f → mappingAfter discovered before = before).
Proof.
  intros Hdl Hparse Hk before. split; [|split; [|split]].
  - intros f <- Hprops. by eapply bootstrapFile_mapping.
  - intros ch pulled Hfile Hrm Hprops. by eapply pullChange_mapping.
  - intros Hnone. unfold mappingAfter. by rewrite Hnone.
  - intros f Hsome. unfold mappingAfter. by rewrite Hsome.
Qed.

Lemma discovered_file_mapping_witness :
  ∃ st',
    bootstrapFile Fake.StringToNumber Fake.JSON_parse Fake.api
      {| f_id := "f1"; f_appProperties := Fake.noteProps "b" |} tt
      (Fake.start Fake.emptyDb Fake.driveWithB) = (st', Ret tt)
    ∧ driveMap (db st') !! KStr "b" = Some {| driveFileId := "f1"; md5 := None |}.
Proof.
  destruct (discovered_file_mapping Fake.StringToNumber Fake.JSON_parse Fake.api
              "f1" "b@200" (Fake.note "b" 200 "remote b") (KStr "b")
              (Fake.start Fake.emptyDb Fake.driveWithB) Fake.driveWithB
              eq_refl eq_refl eq_refl) as (Hboot & _ & _ & _).
  destruct (Hboot {| f_id := "f1"; f_appProperties := Fake.noteProps "b" |}
              eq_refl eq_refl) as (st' & Hrun & Hmap).
  exists st'. split; [exact Hrun|]. rewrite Hmap. reflexivity.
Defined.

(** ** Pull: the returned count *)

Section CountFacts.
Context {W : Type}.
Variable StringToNumber : string → jsnum.
Variable JSON_parse : string → option parsed.
Variable api : DriveApi W.
Implicit Types (st : SyncState W).

(** The incremental loop counts its writes: a turn that returns has either
    left the notes store alone and the counter as it was, or written one
    note and added one to the counter. *)
Lemma pullChange_counts_writes ch pulled st st' n :
  pullChange StringToNumber JSON_parse api ch pulled st = (st', Ret n) →
  (n = pulled ∧ notes (db st') = notes (db st))
  ∨ (n = S pulled ∧ ∃ k note, notes (db st') = <[k := note]> (notes (db st))).
Proof.
  unfold pullChange.
  destruct (nonempty (fileId ch)) as [fid|]; [|intros [= <- <-]; by left].
  destruct (removed ch || _); [intros [= <- <-]; by left|].
  cbv zeta. destruct (negb _); [intros [= <- <-]; by left|].
  intros Hrun.
  apply bind_inv in Hrun as [(st1 & raw & Hdl & Hrun)|[(e & _ & [=])|(_ & [=])]].
  apply (keeps_call notes) in Hdl.
  destruct (JSON_parse raw) as [remoteNote|]; [|injection Hrun as <- <-; by left].
  apply bind_inv in Hrun as [(st2 & rid & Hrid & Hrun)|[(e & _ & [=])|(_ & [=])]].
  assert (db st2 = db st1) as Hst2.
  { destruct remoteNote; simpl in Hrid; by injection Hrid as <-. }
  apply bind_inv in Hrun as [(st3 & local & Hget & Hrun)|[(e & _ & [=])|(_ & [=])]].
  assert (keeps notes (@getNote W rid)) as Hk3.
  { unfold getNote. repeat keeps_step. }
  apply Hk3 in Hget.
  apply bind_inv in Hrun as [(st4 & m & Hput & Hrun)|[(e & _ & [=])|(_ & [=])]].
  apply bind_inv in Hrun as [(st5 & mapping & Hmap & Hrun)|[(e & _ & [=])|(_ & [=])]].
  assert (keeps notes (@getDriveMap W rid)) as Hk5.
  { unfold getDriveMap. repeat keeps_step. }
  apply Hk5 in Hmap.
  apply bind_inv in Hrun as [(st6 & [] & Hset & [= <- <-])|[(e & _ & [=])|(_ & [=])]].
  assert (notes (db st6) = notes (db st5)) as Hst6.
  { destruct (mappedFileId mapping).
    - by injection Hset as <-.
    - revert Hset. apply (keeps_bind notes); [apply keeps_as_key|].
      intros ?. by apply keeps_writeDb. }
  rewrite Hst6, Hmap.
  destruct (winner _).
  - injection Hput as <- <-. left. split; [done|]. congruence.
  - right.
    apply bind_inv in Hput as [(st7 & [] & Hnote & [= <- <-])|[(e & _ & [=])|(_ & [=])]].
    split; [done|]. unfold putNote in Hnote.
    apply bind_inv in Hnote as [(st8 & k & Hkey & Hw)|[(e & _ & [=])|(_ & [=])]].
    apply (keeps_as_key (λ d, d)) in Hkey. injection Hw as <-. simpl.
    exists k, (merged (mergeLastWriteWins StringToNumber local (fields remoteNote))).
    rewrite Hkey. congruence.
Qed.
End CountFacts.

(** C3 at a failing input.  Nothing is stored locally, no cursor either,
    and Drive holds note "b": the bootstrap pull creates the local note "b"
    and returns 0, the loop of ensureCursor having no counter.  The same
    note delivered by the change feed (a cursor is stored) is counted: the
    pull returns 1. *)
Lemma bootstrap_pull_returns_zero :
  let st := Fake.start Fake.emptyDb Fake.driveWithB in
  let run := pullChanges Fake.StringToNumber Fake.JSON_parse Fake.api 2 st in
  let st_inc := Fake.start (Fake.withCursor "t0" Fake.emptyDb) Fake.driveWithB in
  let run_inc := pullChanges Fake.StringToNumber Fake.JSON_parse Fake.api 2 st_inc in
  notes (db st) !! KStr "b" = None
  ∧ notes (db run.1) !! KStr "b" = Some (Fake.note "b" 200 "remote b")
  ∧ run.2 = Ret 0%nat
  ∧ notes (db run_inc.1) !! KStr "b" = Some (Fake.note "b" 200 "remote b")
  ∧ run_inc.2 = Ret 1%nat.
Proof. cbv zeta. repeat split; vm_compute; reflexivity. Qed.

Lemma pushUpsert_create_or_update_witness :
  let run := pushUpsert Fake.api (Fake.note "b" 300 "local b")
               (Fake.start Fake.emptyDb Fake.driveWithB) in
  run.2 = Ret tt
  ∧ trace run.1 = [FindNoteFile "b";
                   UpdateFile "f1" (Fake.note "b" 300 "local b") (JStr "b")]
  ∧ driveMap (db run.1) !! KStr "b"
    = Some {| driveFileId := "f1"; md5 := Some "md5-updated" |}.
Proof.
  destruct (pushUpsert_create_or_update Fake.api (Fake.note "b" 300 "local b")
              (KStr "b") (Fake.start Fake.emptyDb Fake.driveWithB) eq_refl)
    as (_ & Hrec & _ & _).
  destruct (Hrec {| db := Fake.emptyDb; world := Fake.driveWithB;
                    trace := [FindNoteFile "b"] |} "f1" eq_refl) as [_ Hrun].
  - exists (Some "f1"). split; reflexivity.
  - cbv zeta. rewrite Hrun. repeat split; vm_compute; reflexivity.
Defined.

Lemma pushDelete_cases_witness :
  let st := Fake.start (Fake.withMapping "b" "f1" Fake.emptyDb) Fake.driveDown in
  let run := pushDelete Fake.api (JStr "b") st in
  run.2 = Throw "Backend Error"
  ∧ trace run.1 = [DeleteFile "f1"]
  ∧ db run.1 = db st.
Proof.
  destruct (pushDelete_cases Fake.api (JStr "b") (KStr "b")
              (Fake.start (Fake.withMapping "b" "f1" Fake.emptyDb) Fake.driveDown)
              eq_refl) as (Hknown & _).
  cbv zeta. rewrite (Hknown "f1" eq_refl). repeat split; vm_compute; reflexivity.
Defined.


Lemma failed_pull_keeps_cursor_witness :
  let st := Fake.start (Fake.withCursor "t0" Fake.emptyDb) Fake.driveWithGap in
  let run := pullChanges Fake.StringToNumber Fake.JSON_parse Fake.api 3 st in
  run.2 = Throw "File not found."
  ∧ syncMeta (db run.1) = syncMeta (db st).
Proof.
  set (st := Fake.start (Fake.withCursor "t0" Fake.emptyDb) Fake.driveWithGap).
  set (run := pullChanges Fake.StringToNumber Fake.JSON_parse Fake.api 3 st).
  assert (Hrun : pullChanges Fake.StringToNumber Fake.JSON_parse Fake.api 3 st
                 = (run.1, Throw "File not found.")) by (vm_compute; reflexivity).
  destruct (failed_pull_keeps_cursor Fake.StringToNumber Fake.JSON_parse Fake.api
              3 st run.1 "t0" "File not found." eq_refl Hrun) as (Hmeta & _ & _).
  cbv zeta. split; [vm_compute; reflexivity|exact Hmeta].
Defined.

(** * Further properties *)

(** ** The conflict resolver, once more *)

Lemma num_gt_irrefl (a : jsnum) : num_gt a a = false.
Proof. destruct a as [z|]; [apply Z.ltb_irrefl|done]. Qed.

#[global] Instance stamp_le_preorder : PreOrder stamp_le.
Proof.
  split.
  - intros a. by left.
  - intros a b c [->|Hab] [<-|Hbc]; [by left|by right|by right|].
    right. destruct a as [x|], b as [y|], c as [z|]; try done. simpl in *.
    apply Z.ltb_lt in Hab, Hbc. apply Z.ltb_lt. lia.
Qed.

Section ResolverMore.
Variable StringToNumber : string → jsnum.
Implicit Types (loc remote : Note).

Lemma stamp_spread2_remote loc remote v :
  remote !! "updatedAtMs" = Some v →
  stamp StringToNumber (spread2 loc remote) = stamp StringToNumber remote.
Proof.
  intros Hv. unfold stamp, prop. by rewrite (spread2_remote _ _ _ _ Hv), Hv.
Qed.

Lemma stamp_spread2_local loc remote :
  remote !! "updatedAtMs" = None →
  stamp StringToNumber (spread2 loc remote) = stamp StringToNumber loc.
Proof. intros Hv. unfold stamp, prop. by rewrite (spread2_local _ _ _ Hv). Qed.

Lemma spread2_again loc remote : spread2 (spread2 loc remote) remote = spread2 loc remote.
Proof. unfold spread2. by rewrite (assoc_L (∪)), (idemp_L (∪)). Qed.
End ResolverMore.

(** X1. Merging is idempotent: merging the same remote note into the note a
    first merge produced gives that note again, and when the remote note
    carries an [updatedAtMs] property the second merge is won by the local
    side, so that nothing is written. *)
Theorem merge_idempotent (StringToNumber : string → jsnum)
    (local : option Note) (remote : Note) :
  let first := mergeLastWriteWins StringToNumber local remote in
  let second := mergeLastWriteWins StringToNumber (Some (merged first)) remote in
  merged second = merged first
  ∧ (is_Some (remote !! "updatedAtMs") → winner second = Local).
Proof.
  cbv zeta. destruct local as [loc|].
  - rewrite (merge_unfold _ loc).
    destruct (num_gt (stamp _ remote) (stamp _ loc)) eqn:Hgt; cbn [merged].
    + rewrite merge_unfold. split.
      * destruct (num_gt _ (stamp _ (spread2 loc remote))); cbn [merged];
          [apply spread2_again|done].
      * intros [v Hv]. by rewrite (stamp_spread2_remote _ _ _ _ Hv), num_gt_irrefl.
    + rewrite merge_unfold, Hgt. done.
  - change (mergeLastWriteWins StringToNumber None remote)
      with {| winner := Remote; merged := remote |}.
    cbn [merged]. rewrite merge_unfold, num_gt_irrefl. done.
Qed.

(** X2. Merging never moves the timestamp of the local note backwards: the
    merged note's timestamp, as the resolver reads it, is that of the local
    note, or it is that of the remote note and the resolver's comparison
    finds it greater than the local one; and the merged note has every
    property the local note has. *)
Theorem merge_never_older (StringToNumber : string → jsnum) (loc remote : Note) :
  let res := mergeLastWriteWins StringToNumber (Some loc) remote in
  (stamp StringToNumber (merged res) = stamp StringToNumber loc
   ∨ (stamp StringToNumber (merged res) = stamp StringToNumber remote
      ∧ num_gt (stamp StringToNumber (merged res)) (stamp StringToNumber loc) = true))
  ∧ ∀ k, is_Some (loc !! k) → is_Some (merged res !! k).
Proof.
  cbv zeta. rewrite merge_unfold.
  destruct (num_gt (stamp _ remote) (stamp _ loc)) eqn:Hgt; cbn [merged].
  - split.
    + destruct (remote !! "updatedAtMs") as [v|] eqn:Hv.
      * rewrite (stamp_spread2_remote _ _ _ _ Hv). by right.
      * rewrite (stamp_spread2_local _ _ _ Hv). by left.
    + intros k [v Hv]. unfold spread2. rewrite lookup_union.
      rewrite Hv. by destruct (remote !! k).
  - split; [by left|done].
Qed.

Lemma merge_idempotent_witness :
  winner (mergeLastWriteWins Fake.StringToNumber
            (Some (merged (mergeLastWriteWins Fake.StringToNumber
                             (Some (Fake.note "a" 100 "local a"))
                             (Fake.note "a" 200 "remote a"))))
            (Fake.note "a" 200 "remote a")) = Local.
Proof.
  apply (merge_idempotent Fake.StringToNumber
           (Some (Fake.note "a" 100 "local a")) (Fake.note "a" 200 "remote a")).
  by eexists.
Defined.

Lemma merge_never_older_witness :
  is_Some (merged (mergeLastWriteWins Fake.StringToNumber
                     (Some (Fake.note "a" 100 "local a"))
                     {[ "noteId" := JStr "a"; "updatedAtMs" := JNum (Fin 200) ]})
             !! "title").
Proof.
  apply (merge_never_older Fake.StringToNumber (Fake.note "a" 100 "local a")
           {[ "noteId" := JStr "a"; "updatedAtMs" := JNum (Fin 200) ]}).
  by eexists.
Defined.

(** ** What a computation does to the database and sends *)

Section Steps.
Context {W : Type} (R : relation Db) `{!PreOrder R}.
Implicit Types (st : SyncState W).

Lemma steps_ret {A} (a : A) : steps R (ret a : M W A).
Proof. by intros st st' r [= <- _]. Qed.

Lemma steps_throw {A} e : steps R (@throw W A e).
Proof. by intros st st' r [= <- _]. Qed.

Lemma steps_bind {A B} (m : M W A) (k : A → M W B) :
  steps R m → (∀ a, steps R (k a)) → steps R (bind m k).
Proof.
  intros Hm Hk st st' r Hrun.
  apply bind_inv in Hrun as [(st1 & a & Hm1 & Hk1)|[(e & Hm1 & _)|(Hm1 & _)]].
  - etrans; [by eapply Hm|by eapply Hk].
  - by eapply Hm.
  - by eapply Hm.
Qed.

(** The continuation may rely on how its argument was obtained. *)
Lemma steps_bind_with {A B} (m : M W A) (k : A → M W B) st st' r :
  bind m k st = (st', r) →
  (∀ st1 o, m st = (st1, o) → R (db st) (db st1)) →
  (∀ st1 a, m st = (st1, Ret a) → k a st1 = (st', r) → R (db st1) (db st')) →
  R (db st) (db st').
Proof.
  intros Hrun Hm Hk.
  apply bind_inv in Hrun as [(st1 & a & Hm1 & Hk1)|[(e & Hm1 & _)|(Hm1 & _)]].
  - etrans; [by eapply Hm|by eapply Hk].
  - by eapply Hm.
  - by eapply Hm.
Qed.

Lemma steps_try_catch {A} (m : M W A) h :
  steps R m → (∀ e, steps R (h e)) → steps R (try_catch m h).
Proof.
  intros Hm Hh st st' r. unfold try_catch.
  destruct (m st) as [st1 [a|e|]] eqn:Hm1.
  - intros [= <- _]. by eapply Hm.
  - intros Hrun. etrans; [by eapply Hm|by eapply Hh].
  - intros [= <- _]. by eapply Hm.
Qed.

Lemma steps_call {A} c (f : W → W * reply A) : steps R (call c f).
Proof. intros st st' r. unfold call. destruct (f (world st)). by intros [= <- _]. Qed.

Lemma steps_readDb {A} (f : Db → A) : steps R (@readDb W A f).
Proof. by intros st st' r [= <- _]. Qed.

Lemma steps_writeDb (f : Db → Db) : (∀ d, R d (f d)) → steps R (@writeDb W f).
Proof. intros Hf st st' r [= <- _]. apply Hf. Qed.

Lemma steps_as_key v : steps R (@as_key W v).
Proof. unfold as_key. destruct (to_key v); [apply steps_ret|apply steps_throw]. Qed.

Lemma steps_for_of {A S} (l : list A) (body : A → S → M W S) :
  (∀ x acc, steps R (body x acc)) → ∀ acc, steps R (for_of l body acc).
Proof.
  intros Hbody. induction l as [|x l IH]; intros acc; simpl.
  - apply steps_ret.
  - apply steps_bind; [apply Hbody|apply IH].
Qed.
End Steps.

Section Sends.
Context {W : Type} (P : Call → Prop).
Implicit Types (st : SyncState W).

Lemma sends_quiet {A} (m : M W A) :
  (∀ st st' r, m st = (st', r) → trace st' = trace st) → sends P m.
Proof.
  intros Hm st st' r Hrun. exists []. rewrite app_nil_r.
  split; [by eapply Hm|constructor].
Qed.

Lemma sends_ret {A} (a : A) : sends P (ret a : M W A).
Proof. apply sends_quiet. by intros st st' r [= <- _]. Qed.

Lemma sends_throw {A} e : sends P (@throw W A e).
Proof. apply sends_quiet. by intros st st' r [= <- _]. Qed.

Lemma sends_readDb {A} (f : Db → A) : sends P (@readDb W A f).
Proof. apply sends_quiet. by intros st st' r [= <- _]. Qed.

Lemma sends_writeDb (f : Db → Db) : sends P (@writeDb W f).
Proof. apply sends_quiet. by intros st st' r [= <- _]. Qed.

Lemma sends_as_key v : sends P (@as_key W v).
Proof. unfold as_key. destruct (to_key v); [apply sends_ret|apply sends_throw]. Qed.

Lemma sends_call {A} c (f : W → W * reply A) : P c → sends P (call c f).
Proof.
  intros Hc st st' r. unfold call. destruct (f (world st)). intros [= <- _].
  exists [c]. split; [done|]. by constructor.
Qed.

Lemma sends_bind {A B} (m : M W A) (k : A → M W B) :
  sends P m → (∀ a, sends P (k a)) → sends P (bind m k).
Proof.
  intros Hm Hk st st' r Hrun.
  apply bind_inv in Hrun as [(st1 & a & Hm1 & Hk1)|[(e & Hm1 & _)|(Hm1 & _)]].
  - destruct (Hm _ _ _ Hm1) as (c1 & Heq1 & H1).
    destruct (Hk _ _ _ _ Hk1) as (c2 & Heq2 & H2).
    exists (c1 ++ c2). rewrite Heq2, Heq1, <- app_assoc. split; [done|].
    by apply Forall_app.
  - by eapply Hm.
  - by eapply Hm.
Qed.

Lemma sends_try_catch {A} (m : M W A) h :
  sends P m → (∀ e, sends P (h e)) → sends P (try_catch m h).
Proof.
  intros Hm Hh st st' r. unfold try_catch.
  destruct (m st) as [st1 [a|e|]] eqn:Hm1.
  - intros [= <- _]. by eapply Hm.
  - intros Hrun. destruct (Hm _ _ _ Hm1) as (c1 & Heq & H1).
    destruct (Hh _ _ _ _ Hrun) as (c2 & Heq2 & H2).
    exists (c1 ++ c2). rewrite Heq2, Heq, <- app_assoc. split; [done|].
    by apply Forall_app.
  - intros [= <- _]. by eapply Hm.
Qed.

Lemma sends_for_of {A S} (l : list A) (body : A → S → M W S) :
  (∀ x acc, sends P (body x acc)) → ∀ acc, sends P (for_of l body acc).
Proof.
  intros Hbody. induction l as [|x l IH]; intros acc; simpl.
  - apply sends_ret.
  - apply sends_bind; [apply Hbody|apply IH].
Qed.
End Sends.

Ltac sends_step :=
  match goal with
  | |- sends _ (bind _ _) => apply sends_bind; [|intros ?]
  | |- sends _ (ret _) => apply sends_ret
  | |- sends _ (throw _) => apply sends_throw
  | |- sends _ (call _ _) => apply sends_call; try exact I
  | |- sends _ (readDb _) => apply sends_readDb
  | |- sends _ (as_key _) => apply sends_as_key
  | |- sends _ (writeDb _) => apply sends_writeDb
  | |- sends _ (try_catch _ _) => apply sends_try_catch; [|intros ?]
  | |- sends _ (let _ := _ in _) => cbv zeta
  | |- sends _ (match ?x with _ => _ end) => destruct x
  | |- sends _ (if ?x then _ else _) => destruct x
  end.

(** ** Push, as a whole *)

Section PushMore.
Context {W : Type}.
Variable api : DriveApi W.
Implicit Types (st : SyncState W) (op : Op).

Ltac open_push :=
  unfold pushOp, getNote, pushDelete, pushUpsert, resolveFileId,
    findNoteFileByNoteId, getDriveMap, putDriveMap, deleteDriveMap, deleteOp.

Lemma pushOp_keeps_notes op pushed : keeps notes (pushOp api op pushed).
Proof. open_push. repeat keeps_step; reflexivity. Qed.

Lemma pushOp_keeps_syncMeta op pushed : keeps syncMeta (pushOp api op pushed).
Proof. open_push. repeat keeps_step; reflexivity. Qed.

Lemma pushDelete_sends noteId : sends is_delete_call (pushDelete api noteId).
Proof. open_push. repeat sends_step. Qed.

Lemma pushOp_sends op pushed : sends is_push_call (pushOp api op pushed).
Proof. open_push. repeat sends_step. Qed.

Lemma pushOutbox_run st :
  pushOutbox api st = for_of (listOps (db st)) (pushOp api) 0%nat st.
Proof. reflexivity. Qed.

Lemma pushOp_count op pushed st st' n :
  pushOp api op pushed st = (st', Ret n) → n = pushed ∨ n = S pushed.
Proof.
  rewrite pushOp_split. intros Hrun.
  apply bind_inv in Hrun as [(st1 & b & _ & Hrun)|[(e & _ & [=])|(_ & [=])]].
  injection Hrun as _ <-. destruct b; auto.
Qed.

Lemma for_of_pushOp_count (ops : list Op) pushed st st' n :
  for_of ops (pushOp api) pushed st = (st', Ret n) →
  (pushed ≤ n ≤ pushed + length ops)%nat.
Proof.
  revert pushed st. induction ops as [|op ops IH]; intros pushed st; cbn [for_of].
  - intros [= _ <-]. simpl. lia.
  - intros Hrun.
    apply bind_inv in Hrun as [(st1 & m & Hop & Hrest)|[(e & _ & [=])|(_ & [=])]].
    apply pushOp_count in Hop. apply IH in Hrest. simpl. lia.
Qed.

(** A push that returns leaves nothing queued. *)
Lemma pushOutbox_drains st st' n :
  pushOutbox api st = (st', Ret n) → outbox (db st') = ∅.
Proof.
  rewrite pushOutbox_run. intros Hrun. apply map_eq. intros i.
  rewrite (for_of_pushOp_outbox api _ _ _ _ _ Hrun i), lookup_empty.
  case_decide as Hin; [done|].
  destruct (outbox (db st) !! i) as [x|] eqn:Hx; [|done].
  exfalso. apply Hin. apply list_elem_of_fmap. exists (i, x).
  split; [done|]. by apply listOps_elem.
Qed.

Lemma getNote_of_key k st :
  getNote (of_key k) st = (st, Ret (notes (db st) !! k)).
Proof.
  assert (Hk : to_key (of_key k) = Some k) by (by destruct k).
  unfold getNote. by rewrite (bind_ret _ _ _ _ _ (as_key_run _ k st Hk)).
Qed.

Lemma listOps_empty (d : Db) : outbox d = ∅ → listOps d = [].
Proof. intros Hd. unfold listOps. by rewrite Hd, map_to_list_empty. Qed.
End PushMore.

(** X3. A push that returns has emptied the outbox, and the count it
    returns is at most the number of operations that were queued. *)
Theorem pushOutbox_empties_outbox {W : Type} (api : DriveApi W)
    (st st' : SyncState W) (n : nat) :
  pushOutbox api st = (st', Ret n) →
  outbox (db st') = ∅ ∧ (n ≤ length (listOps (db st)))%nat.
Proof.
  intros Hrun. split; [by eapply pushOutbox_drains|].
  rewrite pushOutbox_run in Hrun. apply for_of_pushOp_count in Hrun. lia.
Qed.

(** X4. Whatever its outcome, a push leaves the notes store and the
    syncMeta store (the cursor) as they were, and the only requests it
    sends are lookups by tag, creates, updates and deletes: it never lists
    or downloads. *)
Theorem pushOutbox_frame {W : Type} (api : DriveApi W)
    (st st' : SyncState W) (r : outcome nat) :
  pushOutbox api st = (st', r) →
  notes (db st') = notes (db st)
  ∧ syncMeta (db st') = syncMeta (db st)
  ∧ ∃ calls, trace st' = trace st ++ calls ∧ Forall is_push_call calls.
Proof.
  rewrite pushOutbox_run. intros Hrun. split; [|split].
  - revert Hrun. apply (keeps_for_of notes). apply pushOp_keeps_notes.
  - revert Hrun. apply (keeps_for_of syncMeta). apply pushOp_keeps_syncMeta.
  - revert Hrun. apply (sends_for_of is_push_call). apply pushOp_sends.
Qed.

(** X5. Pushing twice is pushing once: right after a push that returned, a
    second push finds nothing queued, sends no request, changes nothing and
    returns 0. *)
Theorem pushOutbox_twice {W : Type} (api : DriveApi W)
    (st st' : SyncState W) (n : nat) :
  pushOutbox api st = (st', Ret n) →
  pushOutbox api st' = (st', Ret 0%nat).
Proof.
  intros Hrun. apply pushOutbox_drains in Hrun.
  by rewrite pushOutbox_run, (listOps_empty _ Hrun).
Qed.

(** X6. A queued upsert whose note has meanwhile been soft-deleted is
    pushed as a delete: its turn of the loop is the turn of a delete
    operation for the same note, and it sends no create and no update. *)
Theorem upsert_of_tombstone_is_delete {W : Type} (api : DriveApi W)
    (st : SyncState W) (id : string) (k : idbkey) (note : Note)
    (queued queued' : Z) (pushed : nat) :
  notes (db st) !! k = Some note →
  prop note "noteId" = of_key k →
  truthy (prop note "deletedAtMs") = true →
  pushOp api (id, {| type := Upsert; noteId := k; queuedAtMs := queued |}) pushed st
  = pushOp api (id, {| type := Delete; noteId := k; queuedAtMs := queued' |}) pushed st
  ∧ ∀ st' r,
      pushOp api (id, {| type := Upsert; noteId := k; queuedAtMs := queued |}) pushed st
      = (st', r) →
      ∃ calls, trace st' = trace st ++ calls ∧ Forall (λ c, ¬ is_upload c) calls.
Proof.
  intros Hnote Hid Hdel.
  assert (Heq : pushOp api (id, {| type := Upsert; noteId := k; queuedAtMs := queued |})
                  pushed st
                = pushOp api (id, {| type := Delete; noteId := k; queuedAtMs := queued' |})
                    pushed st).
  { unfold pushOp. cbn [type noteId snd].
    rewrite (bind_ret _ _ _ _ _ (getNote_of_key k st)), Hnote, Hdel, Hid. reflexivity. }
  split; [exact Heq|].
  intros st' r. rewrite Heq. unfold pushOp. cbn [type noteId snd]. intros Hrun.
  assert (Hsends : sends (λ c, ¬ is_upload c)
            (pushDelete api (of_key k);;; deleteOp (W := W) (opId (id, {| type := Delete; noteId := k; queuedAtMs := queued' |}));;; ret (S pushed))).
  { unfold pushDelete, resolveFileId, findNoteFileByNoteId, getDriveMap,
      deleteDriveMap, deleteOp.
    repeat sends_step; by intros []. }
  by eapply Hsends.
Qed.

Lemma upsert_of_tombstone_is_delete_witness :
  let st := Fake.start
              (Fake.withOp "op1" Upsert "b" 10
                 (Fake.withMapping "b" "f1"
                    (Fake.withNote (<["deletedAtMs" := JNum (Fin 150)]>
                                      (Fake.note "b" 150 "gone")) Fake.emptyDb)))
              Fake.emptyDrive in
  let run := pushOp Fake.api ("op1", {| type := Upsert; noteId := KStr "b"; queuedAtMs := 10 |})
               0%nat st in
  run.2 = Ret 1%nat ∧ trace run.1 = [DeleteFile "f1"]
  ∧ driveMap (db run.1) !! KStr "b" = None.
Proof.
  intros st.
  destruct (upsert_of_tombstone_is_delete Fake.api st "op1" (KStr "b")
              (<["deletedAtMs" := JNum (Fin 150)]> (Fake.note "b" 150 "gone"))
              10 10 0%nat) as [Heq _]; [vm_compute; reflexivity..|].
  cbv zeta. rewrite Heq. repeat split; vm_compute; reflexivity.
Defined.

Section MootOps.
Context {W : Type}.
Variable api : DriveApi W.
Implicit Types (st : SyncState W) (op : Op).

Lemma pushOp_moot op pushed st :
  type op.2 = Upsert → notes (db st) !! noteId op.2 = None →
  pushOp api op pushed st
  = ({| db := set_outbox (delete (opId op)) (db st);
        world := world st; trace := trace st |}, Ret pushed).
Proof.
  intros Htype Hnote. unfold pushOp. rewrite Htype.
  by rewrite (bind_ret _ _ _ _ _ (getNote_of_key _ st)), Hnote.
Qed.

Lemma for_of_moot (ops : list Op) pushed st :
  (∀ op, op ∈ ops → type op.2 = Upsert ∧ notes (db st) !! noteId op.2 = None) →
  ∃ o, for_of ops (pushOp api) pushed st
       = ({| db := set_outbox (λ _, o) (db st);
             world := world st; trace := trace st |}, Ret pushed).
Proof.
  revert st. induction ops as [|op ops IH]; intros st Hmoot; cbn [for_of].
  - exists (outbox (db st)). by destruct st as [[] ? ?].
  - destruct (Hmoot op) as [Htype Hnote]; [by left|].
    rewrite (bind_ret _ _ _ _ _ (pushOp_moot op pushed st Htype Hnote)).
    destruct (IH {| db := set_outbox (delete (opId op)) (db st);
                    world := world st; trace := trace st |}) as [o Ho].
    { intros op' Hin. apply Hmoot. by right. }
    exists o. by rewrite Ho.
Qed.
End MootOps.

(** X7. Operations that are moot cost nothing: when every queued operation
    is an upsert of a note that is no longer in the notes store, the push
    sends no request, touches neither the remote side nor the mappings,
    empties the outbox and returns 0. *)
Theorem pushOutbox_all_moot {W : Type} (api : DriveApi W) (st : SyncState W) :
  (∀ op, op ∈ listOps (db st) →
         type op.2 = Upsert ∧ notes (db st) !! noteId op.2 = None) →
  pushOutbox api st
  = ({| db := set_outbox (λ _, ∅) (db st); world := world st; trace := trace st |},
     Ret 0%nat).
Proof.
  intros Hmoot. destruct (for_of_moot api _ 0%nat st Hmoot) as [o Ho].
  pose proof Ho as Hrun. rewrite <- pushOutbox_run in Hrun.
  apply pushOutbox_drains in Hrun. simpl in Hrun. subst o.
  by rewrite pushOutbox_run.
Qed.

Lemma pushOutbox_all_moot_witness :
  let st := Fake.start (Fake.withOp "op7" Upsert "gone" 5 Fake.emptyDb) Fake.driveDown in
  pushOutbox Fake.api st
  = ({| db := Fake.emptyDb; world := Fake.driveDown; trace := [] |}, Ret 0%nat).
Proof.
  intros st. rewrite (pushOutbox_all_moot Fake.api st); [reflexivity|].
  intros op Hin. assert (Hops : listOps (db st)
    = [("op7", {| type := Upsert; noteId := KStr "gone"; queuedAtMs := 5 |})])
    by (vm_compute; reflexivity).
  rewrite Hops in Hin. apply list_elem_of_singleton in Hin as ->. by split.
Defined.

Lemma pushOutbox_empties_outbox_witness :
  let st := Fake.start Fake.twoOps Fake.emptyDrive in
  (pushOutbox Fake.api st).2 = Ret 2%nat
  ∧ outbox (db (pushOutbox Fake.api st).1) = ∅.
Proof.
  intros st. split; [vm_compute; reflexivity|].
  apply (pushOutbox_empties_outbox Fake.api st (pushOutbox Fake.api st).1 2%nat).
  vm_compute; reflexivity.
Defined.

Lemma pushOutbox_frame_witness :
  let st := Fake.start Fake.twoOps Fake.driveDown in
  (pushOutbox Fake.api st).2 = Throw "Backend Error"
  ∧ notes (db (pushOutbox Fake.api st).1) = notes Fake.twoOps.
Proof.
  intros st. split; [vm_compute; reflexivity|].
  apply (pushOutbox_frame Fake.api st (pushOutbox Fake.api st).1 (Throw "Backend Error")).
  vm_compute; reflexivity.
Defined.

Lemma pushOutbox_twice_witness :
  let st := Fake.start Fake.twoOps Fake.emptyDrive in
  pushOutbox Fake.api (pushOutbox Fake.api st).1
  = ((pushOutbox Fake.api st).1, Ret 0%nat).
Proof.
  intros st.
  apply (pushOutbox_twice Fake.api st (pushOutbox Fake.api st).1 2%nat).
  vm_compute; reflexivity.
Defined.

(** ** Pull, as a whole *)

#[global] Instance pull_safe_preorder StringToNumber : PreOrder (pull_safe StringToNumber).
Proof.
  split.
  - intros d. split; [done|]. split.
    + intros k n Hn. exists n. split; [done|reflexivity].
    + intros k m Hm. split; [by eexists|done].
  - intros d1 d2 d3 (Ho1 & Hn1 & Hm1) (Ho2 & Hn2 & Hm2). split; [congruence|]. split.
    + intros k n Hn. destruct (Hn1 _ _ Hn) as (n' & Hn' & Hle).
      destruct (Hn2 _ _ Hn') as (n'' & Hn'' & Hle').
      exists n''. split; [done|]. by etrans.
    + intros k m Hm. destruct (Hm1 _ _ Hm) as [[m' Hm'] Hsame].
      destruct (Hm2 _ _ Hm') as [Hsome Hsame']. split; [done|].
      intros Hid. specialize (Hsame Hid). rewrite Hsame in Hm'. injection Hm' as <-.
      by apply Hsame'.
Qed.

Section PullMore.
Context {W : Type}.
Variable StringToNumber : string → jsnum.
Variable JSON_parse : string → option parsed.
Variable api : DriveApi W.
Implicit Types (st : SyncState W).


Lemma getNote_inv v st st' local :
  getNote v st = (st', Ret local) →
  st' = st ∧ ∃ k, to_key v = Some k ∧ local = notes (db st) !! k.
Proof.
  unfold getNote, as_key, bind. destruct (to_key v) as [k|]; [|done].
  intros [= <- <-]. eauto.
Qed.

Lemma getDriveMap_inv v st st' mapping :
  getDriveMap v st = (st', Ret mapping) →
  st' = st ∧ ∃ k, to_key v = Some k ∧ mapping = driveMap (db st) !! k.
Proof.
  unfold getDriveMap, as_key, bind. destruct (to_key v) as [k|]; [|done].
  intros [= <- <-]. eauto.
Qed.

Lemma member_inv remoteNote st st' rid :
  member remoteNote "noteId" st = (st', Ret rid) →
  st' = st ∧ rid = prop (fields remoteNote) "noteId".
Proof. destruct remoteNote; simpl; intros [= <- <-]; done. Qed.

Lemma safe_same (d d' : Db) :
  notes d' = notes d → outbox d' = outbox d → driveMap d' = driveMap d → pull_safe StringToNumber d d'.
Proof.
  intros Hn Ho Hm. split; [done|]. split.
  - intros k n Hk. exists n. rewrite Hn. split; [done|reflexivity].
  - intros k m Hk. rewrite Hm. split; [by eexists|done].
Qed.

Lemma stamp_le_merged local remote n :
  local = Some n →
  stamp_le (stamp StringToNumber n)
    (stamp StringToNumber (merged (mergeLastWriteWins StringToNumber local remote))).
Proof.
  intros ->. rewrite merge_unfold.
  destruct (num_gt (stamp _ remote) (stamp _ n)) eqn:Hgt; cbn [merged]; [|reflexivity].
  destruct (remote !! "updatedAtMs") as [v|] eqn:Hv.
  - rewrite (stamp_spread2_remote _ _ _ _ Hv). by right.
  - rewrite (stamp_spread2_local _ _ _ Hv). reflexivity.
Qed.

Lemma putNote_safe note k st st' r :
  to_key (prop note "noteId") = Some k →
  (∀ n, notes (db st) !! k = Some n →
        stamp_le (stamp StringToNumber n) (stamp StringToNumber note)) →
  putNote note st = (st', r) → pull_safe StringToNumber (db st) (db st').
Proof.
  intros Hk Hle. unfold putNote. rewrite (bind_ret _ _ _ _ _ (as_key_run _ _ st Hk)).
  intros [= <- _]. simpl. split; [done|]. split.
  - intros k' n Hn. simpl. destruct (decide (k = k')) as [<-|Hne].
    + rewrite lookup_insert_eq. eauto.
    + rewrite lookup_insert_ne by done. exists n. split; [done|reflexivity].
  - intros k' m Hm. split; [by eexists|done].
Qed.

Lemma putDriveMap_safe rid k mapping st st' r :
  to_key rid = Some k →
  mappedFileId (driveMap (db st) !! k) = None →
  putDriveMap rid mapping st = (st', r) → pull_safe StringToNumber (db st) (db st').
Proof.
  intros Hk Hnone. unfold putDriveMap. rewrite (bind_ret _ _ _ _ _ (as_key_run _ _ st Hk)).
  intros [= <- _]. simpl. split; [done|]. split.
  - intros k' n Hn. exists n. split; [done|reflexivity].
  - intros k' m Hm. simpl. destruct (decide (k = k')) as [<-|Hne].
    + rewrite lookup_insert_eq. split; [by eexists|].
      rewrite Hm in Hnone. rewrite Hnone. by intros [? [=]].
    + rewrite lookup_insert_ne by done. split; [by eexists|done].
Qed.

Lemma putMerged_safe local remote k st st' r :
  local = notes (db st) !! k →
  to_key (prop remote "noteId") = Some k →
  winner (mergeLastWriteWins StringToNumber local remote) = Remote →
  putNote (merged (mergeLastWriteWins StringToNumber local remote)) st = (st', r) →
  pull_safe StringToNumber (db st) (db st').
Proof.
  intros Hlocal Hk Hw. apply (putNote_safe _ k).
  - by apply merged_noteId.
  - intros n Hn. apply stamp_le_merged. congruence.
Qed.

(** The last statement of both loop bodies. *)
Lemma ensure_mapping_safe rid file :
  steps (pull_safe StringToNumber)
    (let* mapping := getDriveMap (W := W) rid in
     match mappedFileId mapping with
     | None => putDriveMap rid {| driveFileId := file; md5 := None |}
     | Some _ => ret tt
     end).
Proof.
  intros st st' r Hrun.
  apply bind_inv in Hrun as [(st1 & mapping & Hget & Hrun)|[(e & Hget & _)|(Hget & _)]].
  - apply getDriveMap_inv in Hget as (-> & k & Hk & ->).
    destruct (mappedFileId (driveMap (db st) !! k)) eqn:Hm.
    + injection Hrun as <- _. reflexivity.
    + by eapply putDriveMap_safe.
  - assert (db st' = db st) as ->; [|reflexivity].
    revert Hget. apply (keeps_bind (λ d, d)); [apply keeps_as_key|].
    intros ?. apply keeps_readDb.
  - assert (db st' = db st) as ->; [|reflexivity].
    revert Hget. apply (keeps_bind (λ d, d)); [apply keeps_as_key|].
    intros ?. apply keeps_readDb.
Qed.

Lemma getNote_keeps_db v : keeps (λ d, d) (getNote (W := W) v).
Proof. unfold getNote. repeat keeps_step. Qed.

Lemma member_keeps_db p key : keeps (λ d, d) (member (W := W) p key).
Proof. unfold member. repeat keeps_step. Qed.

Lemma keeps_db_safe {A} (m : M W A) : keeps (λ d, d) m → steps (pull_safe StringToNumber) m.
Proof. intros Hm st st' r Hrun. rewrite (Hm _ _ _ Hrun). reflexivity. Qed.

Lemma ensure_mapping_then_safe {A} rid file (k : M W A) :
  steps (pull_safe StringToNumber) k →
  steps (pull_safe StringToNumber)
    (let* mapping := getDriveMap (W := W) rid in
     match mappedFileId mapping with
     | None => putDriveMap rid {| driveFileId := file; md5 := None |}
     | Some _ => ret tt
     end;;; k).
Proof.
  intros Hk st st' r Hrun. rewrite <- bind_assoc in Hrun. revert Hrun.
  apply steps_bind; [apply _|apply ensure_mapping_safe|done].
Qed.

Lemma pullChange_safe ch pulled :
  steps (pull_safe StringToNumber) (pullChange StringToNumber JSON_parse api ch pulled).
Proof.
  unfold pullChange.
  destruct (nonempty (fileId ch)) as [fid|]; [|apply steps_ret; apply _].
  destruct (removed ch || _); [apply steps_ret; apply _|].
  cbv zeta. destruct (negb _); [apply steps_ret; apply _|].
  apply steps_bind; [apply _|apply steps_call; apply _|]. intros raw.
  destruct (JSON_parse raw) as [remoteNote|]; [|apply steps_ret; apply _].
  intros st st' r Hrun.
  eapply (steps_bind_with (pull_safe StringToNumber));
    [exact Hrun|intros ? ?; apply keeps_db_safe, member_keeps_db|].
  clear Hrun. intros ? rid [-> ->]%member_inv Hrun.
  eapply (steps_bind_with (pull_safe StringToNumber));
    [exact Hrun|intros ? ?; apply keeps_db_safe, getNote_keeps_db|].
  clear Hrun. intros ? local (-> & k & Hk & Hlocal)%getNote_inv Hrun.
  eapply (steps_bind_with (pull_safe StringToNumber)); [exact Hrun| |].
  - intros st1 o. destruct (winner _) eqn:Hw; [apply steps_ret; apply _|].
    intros Hput. eapply (steps_bind_with (pull_safe StringToNumber)); [exact Hput| |].
    + intros ? ?. by apply (putMerged_safe _ _ k).
    + intros ? ? _. apply steps_ret; apply _.
  - intros st1 n _. apply ensure_mapping_then_safe. apply steps_ret; apply _.
Qed.

Lemma bootstrapFile_safe f u :
  steps (pull_safe StringToNumber) (bootstrapFile StringToNumber JSON_parse api f u).
Proof.
  unfold bootstrapFile.
  cbv zeta. destruct (negb _); [apply steps_ret; apply _|].
  apply steps_bind; [apply _|apply steps_call; apply _|]. intros raw.
  destruct (JSON_parse raw) as [remoteNote|]; [|apply steps_ret; apply _].
  intros st st' r Hrun.
  eapply (steps_bind_with (pull_safe StringToNumber));
    [exact Hrun|intros ? ?; apply keeps_db_safe, member_keeps_db|].
  clear Hrun. intros ? rid [-> ->]%member_inv Hrun.
  eapply (steps_bind_with (pull_safe StringToNumber));
    [exact Hrun|intros ? ?; apply keeps_db_safe, getNote_keeps_db|].
  clear Hrun. intros ? local (-> & k & Hk & Hlocal)%getNote_inv Hrun.
  eapply (steps_bind_with (pull_safe StringToNumber)); [exact Hrun| |].
  - intros st1 o. destruct (winner _) eqn:Hw; [apply steps_ret; apply _|].
    by apply (putMerged_safe _ _ k).
  - intros st1 n _. apply ensure_mapping_safe.
Qed.

Lemma setMeta_safe key value : steps (pull_safe StringToNumber) (setMeta (W := W) key value).
Proof. apply steps_writeDb. intros d. by apply safe_same. Qed.

Lemma pullPages_safe fuel cursor pulled :
  steps (pull_safe StringToNumber) (pullPages StringToNumber JSON_parse api fuel cursor pulled).
Proof.
  revert cursor pulled. induction fuel as [|fuel IH]; intros cursor pulled; cbn [pullPages].
  - intros st st' r [= <- _]. reflexivity.
  - apply steps_bind; [apply _|apply steps_call; apply _|]. intros data.
    apply steps_bind; [apply _|apply steps_for_of; [apply _|apply pullChange_safe]|].
    intros n. destruct (nonempty (nextPageToken data)); [apply IH|].
    apply steps_bind; [apply _| |intros; apply steps_ret; apply _].
    destruct (nonempty (newStartPageToken data)); apply setMeta_safe.
Qed.

Lemma ensureCursor_safe : steps (pull_safe StringToNumber) (ensureCursor StringToNumber JSON_parse api).
Proof.
  unfold ensureCursor.
  apply steps_bind; [apply _|apply steps_readDb; apply _|]. intros cursor.
  destruct (nonempty cursor); [apply steps_ret; apply _|].
  apply steps_bind; [apply _|apply steps_call; apply _|]. intros files.
  apply steps_bind; [apply _|apply steps_for_of; [apply _|apply bootstrapFile_safe]|].
  intros _. apply steps_bind; [apply _|apply steps_call; apply _|]. intros c.
  apply steps_bind; [apply _|apply setMeta_safe|]. intros _. apply steps_ret; apply _.
Qed.

Lemma pullChanges_safe fuel : steps (pull_safe StringToNumber) (pullChanges StringToNumber JSON_parse api fuel).
Proof.
  unfold pullChanges. apply steps_bind; [apply _|apply ensureCursor_safe|].
  intros c. apply pullPages_safe.
Qed.

Lemma pullPages_sends fuel cursor pulled :
  sends is_pull_call (pullPages StringToNumber JSON_parse api fuel cursor pulled).
Proof.
  revert cursor pulled. induction fuel as [|fuel IH]; intros cursor pulled; cbn [pullPages].
  - apply sends_quiet. by intros st st' r [= <- _].
  - apply sends_bind; [by apply sends_call|]. intros data.
    apply sends_bind.
    + apply sends_for_of. intros ch n.
      unfold pullChange, member, getNote, putNote, getDriveMap, putDriveMap.
      repeat sends_step.
    + intros n. destruct (nonempty (nextPageToken data)); [apply IH|].
      unfold setMeta. repeat sends_step.
Qed.

Lemma pullChanges_sends fuel :
  sends is_pull_call (pullChanges StringToNumber JSON_parse api fuel).
Proof.
  unfold pullChanges, ensureCursor. apply sends_bind; [|intros; apply pullPages_sends].
  unfold getMeta, setMeta. repeat sends_step.
  apply sends_for_of. intros f u.
  unfold bootstrapFile, member, getNote, putNote, getDriveMap, putDriveMap.
  repeat sends_step.
Qed.
End PullMore.

(** X8. Whatever its outcome, a pull leaves the outbox as it was and never
    removes a mapping; a mapping that has a file id is left exactly as it
    was. *)
Theorem pull_keeps_outbox_and_mappings {W : Type} (StringToNumber : string → jsnum)
    (JSON_parse : string → option parsed) (api : DriveApi W)
    (fuel : nat) (st st' : SyncState W) (r : outcome nat) :
  pullChanges StringToNumber JSON_parse api fuel st = (st', r) →
  outbox (db st') = outbox (db st)
  ∧ ∀ k m, driveMap (db st) !! k = Some m →
      is_Some (driveMap (db st') !! k)
      ∧ (is_Some (mappedFileId (Some m)) → driveMap (db st') !! k = Some m).
Proof.
  intros Hrun. apply pullChanges_safe in Hrun as (Ho & _ & Hm). by split.
Qed.

(** X9. Whatever its outcome, a pull never removes a local note and never
    moves one back in time: every note of the store is still there
    afterwards, under the same key, and its timestamp, as the resolver reads
    it, is the one it had or one that the resolver's comparison finds
    greater. *)
Theorem pull_never_loses_notes {W : Type} (StringToNumber : string → jsnum)
    (JSON_parse : string → option parsed) (api : DriveApi W)
    (fuel : nat) (st st' : SyncState W) (r : outcome nat) :
  pullChanges StringToNumber JSON_parse api fuel st = (st', r) →
  ∀ k n, notes (db st) !! k = Some n →
    ∃ n', notes (db st') !! k = Some n'
          ∧ (stamp StringToNumber n = stamp StringToNumber n'
             ∨ num_gt (stamp StringToNumber n') (stamp StringToNumber n) = true).
Proof. intros Hrun. by apply pullChanges_safe in Hrun as (_ & Hn & _). Qed.

(** X10. Whatever its outcome, a pull only reads from Drive: the requests
    it sends are the listing, downloads, the start token and pages of
    changes, never a create, an update, a delete or a lookup by tag. *)
Theorem pull_only_reads {W : Type} (StringToNumber : string → jsnum)
    (JSON_parse : string → option parsed) (api : DriveApi W)
    (fuel : nat) (st st' : SyncState W) (r : outcome nat) :
  pullChanges StringToNumber JSON_parse api fuel st = (st', r) →
  ∃ calls, trace st' = trace st ++ calls ∧ Forall is_pull_call calls.
Proof. apply pullChanges_sends. Qed.

Lemma pull_keeps_outbox_and_mappings_witness :
  let st := Fake.start (Fake.withCursor "t0" (Fake.withMapping "b" "old-file" Fake.twoOps))
              Fake.driveWithGap in
  let run := pullChanges Fake.StringToNumber Fake.JSON_parse Fake.api 3 st in
  run.2 = Throw "File not found."
  ∧ outbox (db run.1) = outbox (db st)
  ∧ driveMap (db run.1) !! KStr "b" = Some {| driveFileId := "old-file"; md5 := None |}.
Proof.
  intros st run.
  assert (Hrun : pullChanges Fake.StringToNumber Fake.JSON_parse Fake.api 3 st
                 = (run.1, Throw "File not found.")) by (vm_compute; reflexivity).
  destruct (pull_keeps_outbox_and_mappings _ _ _ _ _ _ _ Hrun) as [Ho Hm].
  split; [vm_compute; reflexivity|]. split; [exact Ho|].
  apply (Hm (KStr "b")); [vm_compute; reflexivity|by eexists].
Defined.

Lemma pull_never_loses_notes_witness :
  let st := Fake.start (Fake.withCursor "t0" (Fake.withNote (Fake.note "b" 300 "local b")
                                                 Fake.emptyDb)) Fake.driveWithB in
  let run := pullChanges Fake.StringToNumber Fake.JSON_parse Fake.api 3 st in
  ∃ n', notes (db run.1) !! KStr "b" = Some n'
        ∧ (Fin 300 = stamp Fake.StringToNumber n'
           ∨ num_gt (stamp Fake.StringToNumber n') (Fin 300) = true).
Proof.
  intros st run.
  apply (pull_never_loses_notes Fake.StringToNumber Fake.JSON_parse Fake.api 3 st
           run.1 run.2 (surjective_pairing _) (KStr "b") (Fake.note "b" 300 "local b")).
  vm_compute; reflexivity.
Defined.

Lemma pull_only_reads_witness :
  let st := Fake.start Fake.emptyDb Fake.driveWithB in
  let run := pullChanges Fake.StringToNumber Fake.JSON_parse Fake.api 3 st in
  ∃ calls, trace run.1 = trace st ++ calls ∧ Forall is_pull_call calls.
Proof.
  intros st run.
  apply (pull_only_reads Fake.StringToNumber Fake.JSON_parse Fake.api 3 st
           run.1 run.2 (surjective_pairing _)).
Defined.

(** ** Pull: the cursor, once more *)

Lemma nonempty_fix (o : option string) (x : string) :
  nonempty o = Some x → nonempty (Some x) = Some x.
Proof.
  destruct o as [y|]; [|done]. simpl.
  destruct (String.eqb y "") eqn:Hy; [done|]. intros [= <-]. by rewrite Hy.
Qed.

Lemma call_inv {W A} c (f : W → W * reply A) (st st' : SyncState W) (r : outcome A) :
  call c f st = (st', r) → db st' = db st ∧ trace st' = trace st ++ [c].
Proof. unfold call. destruct (f (world st)). by intros [= <- _]. Qed.

Lemma call_ok {W A} c (f : W → W * reply A) (st : SyncState W) w a :
  f (world st) = (w, Ok a) →
  call c f st = ({| db := db st; world := w; trace := trace st ++ [c] |}, Ret a).
Proof. intros Hf. unfold call. by rewrite Hf. Qed.

Section CursorMore.
Context {W : Type}.
Variable StringToNumber : string → jsnum.
Variable JSON_parse : string → option parsed.
Variable api : DriveApi W.
Implicit Types (st : SyncState W).

Lemma pullPages_has_cursor fuel cursor pulled st st' r :
  nonempty (Some cursor) = Some cursor →
  is_Some (nonempty (syncMeta (db st) !! cursorKey)) →
  pullPages StringToNumber JSON_parse api fuel cursor pulled st = (st', r) →
  is_Some (nonempty (syncMeta (db st') !! cursorKey)).
Proof.
  revert cursor pulled st.
  induction fuel as [|fuel IH]; intros cursor pulled st Hc Hst; cbn [pullPages].
  - by intros [= <- _].
  - intros Hrun.
    apply bind_inv in Hrun as [(st1 & data & Hlist & Hrun)|[(e & Hlist & _)|(Hlist & _)]];
      pose proof (keeps_call syncMeta _ _ _ _ _ Hlist) as Hk1; [|by rewrite Hk1..].
    apply bind_inv in Hrun as [(st2 & n & Hpage & Hrun)|[(e & Hpage & _)|(Hpage & _)]];
      pose proof (keeps_for_of syncMeta _ _
                    (pullChange_keeps_syncMeta StringToNumber JSON_parse api) _ _ _ _ Hpage)
        as Hk2; [|by rewrite Hk2, Hk1..].
    destruct (nonempty (nextPageToken data)) as [next|] eqn:Hnext.
    + apply (IH next n st2); [by eapply nonempty_fix|by rewrite Hk2, Hk1|done].
    + destruct (nonempty (newStartPageToken data)) as [token|] eqn:Htoken;
        injection Hrun as <- _; simpl; rewrite lookup_insert_eq.
      * rewrite (nonempty_fix _ _ Htoken). by eexists.
      * rewrite Hc. by eexists.
Qed.

Lemma ensureCursor_returns_stored st st' c :
  ensureCursor StringToNumber JSON_parse api st = (st', Ret c) →
  syncMeta (db st') !! cursorKey = Some c.
Proof.
  unfold ensureCursor. unfold bind at 1, getMeta, readDb.
  destruct (syncMeta (db st) !! cursorKey) as [s|] eqn:Hs; simpl.
  - destruct (String.eqb s "") eqn:Hempty.
    + intros Hrun.
      apply bind_inv in Hrun as [(st1 & files & _ & Hrun)|[(e & _ & [=])|(_ & [=])]].
      apply bind_inv in Hrun as [(st2 & [] & _ & Hrun)|[(e & _ & [=])|(_ & [=])]].
      apply bind_inv in Hrun as [(st3 & c' & _ & Hrun)|[(e & _ & [=])|(_ & [=])]].
      injection Hrun as <- <-. simpl. apply lookup_insert_eq.
    + by intros [= <- <-].
  - intros Hrun.
    apply bind_inv in Hrun as [(st1 & files & _ & Hrun)|[(e & _ & [=])|(_ & [=])]].
    apply bind_inv in Hrun as [(st2 & [] & _ & Hrun)|[(e & _ & [=])|(_ & [=])]].
    apply bind_inv in Hrun as [(st3 & c' & _ & Hrun)|[(e & _ & [=])|(_ & [=])]].
    injection Hrun as <- <-. simpl. apply lookup_insert_eq.
Qed.
End CursorMore.

(** X11. Once incremental, always incremental: a pull that starts with a
    stored cursor leaves, whatever its outcome, a non-empty cursor stored,
    so that the next pull lists changes and does not bootstrap again. *)
Theorem pull_keeps_a_cursor {W : Type} (StringToNumber : string → jsnum)
    (JSON_parse : string → option parsed) (api : DriveApi W)
    (fuel : nat) (st st' : SyncState W) (c : string) (r : outcome nat) :
  nonempty (syncMeta (db st) !! cursorKey) = Some c →
  pullChanges StringToNumber JSON_parse api fuel st = (st', r) →
  ∃ c', nonempty (syncMeta (db st') !! cursorKey) = Some c'
        ∧ ensureCursor StringToNumber JSON_parse api st' = (st', Ret c').
Proof.
  intros Hc Hrun. unfold pullChanges in Hrun.
  rewrite (bind_ret _ _ _ _ _ (ensureCursor_stored _ _ _ _ _ Hc)) in Hrun.
  apply pullPages_has_cursor in Hrun as [c' Hc'].
  - exists c'. split; [done|]. by apply ensureCursor_stored.
  - by eapply nonempty_fix.
  - rewrite Hc. by eexists.
Qed.

(** X12. The cursor that ensureCursor returns is the cursor that is stored
    when it returns, after a bootstrap as well; if it is not the empty
    string, asking again returns it at once, without any request and
    without another bootstrap. *)
Theorem ensureCursor_stores_what_it_returns {W : Type} (StringToNumber : string → jsnum)
    (JSON_parse : string → option parsed) (api : DriveApi W)
    (st st' : SyncState W) (c : string) :
  ensureCursor StringToNumber JSON_parse api st = (st', Ret c) →
  syncMeta (db st') !! cursorKey = Some c
  ∧ (c ≠ "" → ensureCursor StringToNumber JSON_parse api st' = (st', Ret c)).
Proof.
  intros Hrun. apply ensureCursor_returns_stored in Hrun. split; [done|].
  intros Hne. apply ensureCursor_stored. rewrite Hrun. simpl.
  destruct (String.eqb_spec c ""); done.
Qed.

Lemma pull_keeps_a_cursor_witness :
  let st := Fake.start (Fake.withCursor "t0" Fake.emptyDb) Fake.driveWithB in
  let run := pullChanges Fake.StringToNumber Fake.JSON_parse Fake.api 3 st in
  ∃ c', nonempty (syncMeta (db run.1) !! cursorKey) = Some c'
        ∧ ensureCursor Fake.StringToNumber Fake.JSON_parse Fake.api run.1 = (run.1, Ret c').
Proof.
  intros st run.
  apply (pull_keeps_a_cursor Fake.StringToNumber Fake.JSON_parse Fake.api 3 st
           run.1 "t0" run.2); [reflexivity|apply surjective_pairing].
Defined.

Lemma ensureCursor_stores_what_it_returns_witness :
  let st := Fake.start Fake.emptyDb Fake.driveWithB in
  let run := ensureCursor Fake.StringToNumber Fake.JSON_parse Fake.api st in
  run.2 = Ret "t1" ∧ syncMeta (db run.1) !! cursorKey = Some "t1".
Proof.
  intros st run. split; [vm_compute; reflexivity|].
  apply (ensureCursor_stores_what_it_returns Fake.StringToNumber Fake.JSON_parse
           Fake.api st run.1 "t1").
  vm_compute; reflexivity.
Defined.

(** ** Pull: bodies that are not notes *)

(** X13. What a downloaded body that is not a note does to the pull.  A
    body that is not JSON is skipped: the turn returns the counter it was
    given and the database is as it was.  A body that is JSON but [null],
    that is not an object, or that is an object without a usable [noteId],
    is not skipped: the turn throws, and with it the whole pull, before
    anything is written. *)
Theorem pullChange_bad_body {W : Type} (StringToNumber : string → jsnum)
    (JSON_parse : string → option parsed) (api : DriveApi W)
    (ch : Change) (fid raw : string) (pulled : nat) (st : SyncState W) (w : W) :
  nonempty (fileId ch) = Some fid →
  is_removal ch = false →
  is_note_props (default ∅ (file ch ≫= appProperties)) = true →
  downloadFile api fid (world st) = (w, Ok raw) →
  let st1 := {| db := db st; world := w; trace := trace st ++ [DownloadFile fid] |} in
  let run := pullChange StringToNumber JSON_parse api ch pulled st in
  (JSON_parse raw = None → run = (st1, Ret pulled))
  ∧ (JSON_parse raw = Some PNull → run = (st1, Throw TypeError))
  ∧ (JSON_parse raw = Some POther → run = (st1, Throw DataError))
  ∧ (∀ o, JSON_parse raw = Some (PObj o) → to_key (prop o "noteId") = None →
          run = (st1, Throw DataError)).
Proof.
  intros Hfile Hrm Hprops Hdl st1 run.
  assert (Hturn : ∀ p, JSON_parse raw = p →
            match p with
            | None => run = (st1, Ret pulled)
            | Some remoteNote =>
                match member remoteNote "noteId" st1 with
                | (st2, Ret rid) => to_key rid = None → run = (st2, Throw DataError)
                | (st2, Throw e) => run = (st2, Throw e)
                | (st2, OutOfFuel) => True
                end
            end).
  { intros p Hp. subst run. unfold pullChange, is_removal in *.
    rewrite Hfile, Hrm, Hprops. cbn [negb].
    rewrite (bind_ret _ _ _ _ _ (call_ok _ _ _ _ _ Hdl)). fold st1. rewrite Hp.
    destruct p as [remoteNote|]; [|reflexivity].
    destruct (member remoteNote "noteId" st1) as [st2 [rid|e|]] eqn:Hmem; [| |done].
    - intros Hkey. rewrite (bind_ret _ _ _ _ _ Hmem).
      apply bind_throw. unfold getNote. apply bind_throw. unfold as_key. by rewrite Hkey.
    - by apply bind_throw. }
  repeat split.
  - intros Hp. exact (Hturn _ Hp).
  - intros Hp. exact (Hturn _ Hp).
  - intros Hp. by apply (Hturn _ Hp).
  - intros o Hp Hkey. by apply (Hturn _ Hp).
Qed.

Lemma pullChange_bad_body_witness :
  let drive := {| Fake.bodies := {[ "f3" := "null" ]}; Fake.listing := [];
                  Fake.pages := ∅; Fake.startToken := "t1"; Fake.tagged := ∅;
                  Fake.deleteError := None |} in
  pullChange Fake.StringToNumber Fake.JSON_parse Fake.api (Fake.noteChange "f3" "n") 0%nat
    (Fake.start Fake.emptyDb drive)
  = ({| db := Fake.emptyDb; world := drive; trace := [DownloadFile "f3"] |},
     Throw TypeError).
Proof.
  intros drive.
  apply (pullChange_bad_body Fake.StringToNumber Fake.JSON_parse Fake.api
           (Fake.noteChange "f3" "n") "f3" "null" 0%nat (Fake.start Fake.emptyDb drive) drive);
    reflexivity.
Defined.

(** ** Pull: what the returned count counts *)

Section CountMore.
Context {W : Type}.
Variable StringToNumber : string → jsnum.
Variable JSON_parse : string → option parsed.
Variable api : DriveApi W.
Implicit Types (st : SyncState W).

(** The write of the merged note and the step of the counter. *)
Lemma apply_merged_counts local remote k pulled st :
  to_key (prop remote "noteId") = Some k →
  match winner (mergeLastWriteWins StringToNumber local remote) with
  | Remote =>
      putNote (merged (mergeLastWriteWins StringToNumber local remote));;; ret (S pulled)
  | Local => ret pulled
  end st
  = match winner (mergeLastWriteWins StringToNumber local remote) with
    | Remote =>
        ({| db := set_notes
                    <[k := merged (mergeLastWriteWins StringToNumber local remote)]> (db st);
            world := world st; trace := trace st |}, Ret (S pulled))
    | Local => (st, Ret pulled)
    end.
Proof.
  intros Hk. destruct (winner _) eqn:Hw; [done|]. unfold putNote.
  by rewrite bind_assoc, (bind_ret _ _ _ _ _ (as_key_run _ _ st (merged_noteId _ _ _ _ Hk Hw))).
Qed.

(** The last statement of the loop body leaves the notes store and the
    remote side alone. *)
Lemma ensure_mapping_quiet rid k file st :
  to_key rid = Some k →
  ∃ st',
    bind (getDriveMap rid)
      (λ mapping,
         match mappedFileId mapping with
         | None => putDriveMap rid {| driveFileId := file; md5 := None |}
         | Some _ => ret tt
         end) st = (st', Ret tt)
    ∧ notes (db st') = notes (db st) ∧ world st' = world st ∧ trace st' = trace st.
Proof.
  intros Hk. unfold getDriveMap, putDriveMap.
  rewrite bind_assoc, (bind_ret _ _ _ _ _ (as_key_run _ _ st Hk)).
  unfold bind at 1, readDb.
  destruct (mappedFileId (driveMap (db st) !! k)).
  - by exists st.
  - rewrite (bind_ret _ _ _ _ _ (as_key_run _ _ st Hk)). by eexists.
Qed.
End CountMore.

(** X30. What a turn of the incremental loop counts.  When the downloaded
    body parses to an object with a usable noteId, the turn returns, and it
    adds one to the counter exactly when the resolver lets the remote note
    win against the local note of that id: then, and only then, the merged
    note is put into the notes store under that id.  When the local note
    wins, the counter and the notes store are as they were. *)
Theorem pullChange_counts_remote_wins {W : Type} (StringToNumber : string → jsnum)
    (JSON_parse : string → option parsed) (api : DriveApi W)
    (ch : Change) (fid raw : string) (remoteNote : Note) (k : idbkey)
    (pulled : nat) (st : SyncState W) (w : W) :
  nonempty (fileId ch) = Some fid →
  is_removal ch = false →
  is_note_props (default ∅ (file ch ≫= appProperties)) = true →
  downloadFile api fid (world st) = (w, Ok raw) →
  JSON_parse raw = Some (PObj remoteNote) →
  to_key (prop remoteNote "noteId") = Some k →
  let res := mergeLastWriteWins StringToNumber (notes (db st) !! k) remoteNote in
  ∃ st',
    pullChange StringToNumber JSON_parse api ch pulled st
    = (st', Ret (match winner res with Remote => S pulled | Local => pulled end))
    ∧ notes (db st') = match winner res with
                       | Remote => <[k := merged res]> (notes (db st))
                       | Local => notes (db st)
                       end
    ∧ world st' = w ∧ trace st' = trace st ++ [DownloadFile fid].
Proof.
  intros Hfile Hrm Hprops Hdl Hparse Hk res. unfold pullChange, is_removal in *.
  rewrite Hfile, Hrm, Hprops. cbn [negb].
  rewrite (bind_ret _ _ _ _ _ (call_ok _ _ _ _ _ Hdl)). rewrite Hparse. cbn [member].
  set (st1 := {| db := db st; world := w; trace := _ |}).
  unfold bind at 1, ret at 1.
  unfold getNote. rewrite bind_assoc, (bind_ret _ _ _ _ _ (as_key_run _ _ st1 Hk)).
  unfold bind at 1, readDb. cbv zeta. cbn [fields].
  change (notes (db st1) !! k) with (notes (db st) !! k). fold res.
  pose proof (apply_merged_counts StringToNumber (notes (db st) !! k) remoteNote k pulled
                st1 Hk) as Hput.
  fold res in Hput. destruct (winner res); rewrite (bind_ret _ _ _ _ _ Hput).
  - destruct (ensure_mapping_quiet (prop remoteNote "noteId") k fid st1 Hk)
      as (st' & Hrun & Hnotes & Hworld & Htrace).
    exists st'. rewrite <- (bind_assoc (getDriveMap _) _ (λ _, ret pulled)).
    by rewrite (bind_ret _ _ _ _ _ Hrun).
  - set (st2 := {| db := set_notes <[k := merged res]> (db st1);
                   world := world st1; trace := trace st1 |}).
    destruct (ensure_mapping_quiet (prop remoteNote "noteId") k fid st2 Hk)
      as (st' & Hrun & Hnotes & Hworld & Htrace).
    exists st'. rewrite <- (bind_assoc (getDriveMap _) _ (λ _, ret (S pulled))).
    by rewrite (bind_ret _ _ _ _ _ Hrun).
Qed.

Lemma pullChange_counts_remote_wins_witness :
  let st := Fake.start (Fake.withNote (Fake.note "b" 100 "local b") Fake.emptyDb)
              Fake.driveWithB in
  let res := mergeLastWriteWins Fake.StringToNumber (Some (Fake.note "b" 100 "local b"))
               (Fake.note "b" 200 "remote b") in
  ∃ st',
    pullChange Fake.StringToNumber Fake.JSON_parse Fake.api (Fake.noteChange "f1" "b") 4%nat st
    = (st', Ret 5%nat)
    ∧ notes (db st') = <[KStr "b" := merged res]> (notes (db st))
    ∧ world st' = Fake.driveWithB ∧ trace st' = [DownloadFile "f1"].
Proof.
  intros st res.
  apply (pullChange_counts_remote_wins Fake.StringToNumber Fake.JSON_parse Fake.api
           (Fake.noteChange "f1" "b") "f1" "b@200" (Fake.note "b" 200 "remote b") (KStr "b")
           4%nat st Fake.driveWithB); reflexivity.
Defined.

(** ** driveApi.js: the query of findNoteFileByNoteId *)

Lemma string_app_cons c s t : String c s +:+ t = String c (s +:+ t).
Proof. reflexivity. Qed.

Lemma string_app_length s t : String.length (s +:+ t) = (String.length s + String.length t)%nat.
Proof. induction s as [|c s IH]; [done|]. rewrite string_app_cons. simpl. by rewrite IH. Qed.

Lemma string_app_inj_r s1 s2 t : s1 +:+ t = s2 +:+ t → s1 = s2.
Proof.
  revert s2. induction s1 as [|c s1 IH]; intros [|d s2] Heq.
  - done.
  - apply (f_equal String.length) in Heq.
    rewrite !string_app_length in Heq. simpl in Heq. lia.
  - apply (f_equal String.length) in Heq.
    rewrite !string_app_length in Heq. simpl in Heq. lia.
  - rewrite !string_app_cons in Heq. injection Heq as -> Heq. f_equal. by apply IH.
Qed.

Lemma escapeQuotes_head s c rest : escapeQuotes s = String c rest → c ≠ apostrophe.
Proof.
  destruct s as [|d s]; [done|]. simpl.
  destruct (Ascii.eqb_spec d apostrophe) as [->|Hd]; intros [= <- _]; [done|done].
Qed.

Lemma escapeQuotes_inj s t : escapeQuotes s = escapeQuotes t → s = t.
Proof.
  revert t. induction s as [|c s IH]; intros [|d t]; simpl.
  - done.
  - destruct (Ascii.eqb d apostrophe); discriminate.
  - destruct (Ascii.eqb c apostrophe); discriminate.
  - destruct (Ascii.eqb_spec c apostrophe) as [->|Hc],
             (Ascii.eqb_spec d apostrophe) as [->|Hd].
    + intros [= Heq]. f_equal. by apply IH.
    + intros [= <- Heq]. symmetry in Heq. by apply escapeQuotes_head in Heq.
    + intros [= -> Heq]. by apply escapeQuotes_head in Heq.
    + intros [= -> Heq]. f_equal. by apply IH.
Qed.

Lemma escapeQuotes_guarded s i :
  String.get i (escapeQuotes s) = Some apostrophe →
  ∃ j, i = S j ∧ String.get j (escapeQuotes s) = Some backslash.
Proof.
  revert i. induction s as [|c s IH]; intros i; simpl; [by destruct i|].
  destruct (Ascii.eqb_spec c apostrophe) as [->|Hc].
  - destruct i as [|[|i]]; simpl.
    + done.
    + intros _. by exists 0%nat.
    + intros Hi. destruct (IH _ Hi) as (j & -> & Hj). exists (S (S j)).
      split; [done|]. exact Hj.
  - destruct i as [|i]; simpl.
    + intros [= ->]. done.
    + intros Hi. destruct (IH _ Hi) as (j & -> & Hj). exists (S j). split; [done|].
      exact Hj.
Qed.

(** X14. The query of findNoteFileByNoteId tells note ids apart: two ids
    give the same query only if they are the same id; and an id without an
    apostrophe is in the query as it is. *)
Theorem noteIdQuery_inj (a b : string) :
  (noteIdQuery a = noteIdQuery b → a = b)
  ∧ (escapeQuotes a = a ↔ ∀ i, String.get i a ≠ Some apostrophe).
Proof.
  split.
  - unfold noteIdQuery. intros Heq.
    do 3 apply (inj (String.app _)) in Heq.
    by apply string_app_inj_r, escapeQuotes_inj in Heq.
  - clear b. induction a as [|c a IH]; simpl.
    + split; [by intros _ []|done].
    + destruct (Ascii.eqb_spec c apostrophe) as [->|Hc].
      * split.
        -- intros [=].
        -- intros Hno. by specialize (Hno 0%nat).
      * split.
        -- intros [= Heq] [|i]; simpl; [congruence|]. by apply IH.
        -- intros Hno. f_equal. apply IH. intros i. apply (Hno (S i)).
Qed.

Lemma noteIdQuery_inj_witness :
  escapeQuotes "note-1" = "note-1".
Proof.
  apply (noteIdQuery_inj "note-1" "note-1").
  intros i. do 7 (destruct i as [|i]; [discriminate|]). by destruct i.
Defined.

(** X15. In the escaped note id every apostrophe has a backslash right
    before it: the id cannot end the quoted value of the query with an
    apostrophe of its own. *)
Theorem escaped_quotes_are_guarded (noteId : string) (i : nat) :
  String.get i (escapeQuotes noteId) = Some apostrophe →
  ∃ j, i = S j ∧ String.get j (escapeQuotes noteId) = Some backslash.
Proof. apply escapeQuotes_guarded. Qed.

Lemma escaped_quotes_are_guarded_witness :
  ∃ j, 3%nat = S j ∧ String.get j (escapeQuotes "it's") = Some backslash.
Proof. apply (escaped_quotes_are_guarded "it's" 3). reflexivity. Defined.

(** ** driveApi.js: the pages of listAllNoteFiles *)

Section Paging.
Context {W : Type}.
Variable request : option string → W → W * reply (option FilesPage).

Lemma listAllNoteFilesFrom_leads ps fuel pageToken files w pageToken' w' :
  leads request pageToken w ps pageToken' w' →
  listAllNoteFilesFrom request (length ps + fuel) pageToken files w
  = listAllNoteFilesFrom request fuel pageToken'
      (files ++ concat (filesOf <$> ps)) w'.
Proof.
  revert pageToken files w. induction ps as [|p ps IH]; intros pageToken files w; simpl.
  - intros [-> ->]. by rewrite app_nil_r.
  - intros (w1 & next & Hreq & Hnext & Hrest). rewrite Hreq, Hnext.
    rewrite (IH _ _ _ Hrest). unfold filesOf at 2. by rewrite <- app_assoc.
Qed.
End Paging.

(** X16. listAllNoteFiles returns the files of all pages, in the order of
    the pages: when the requests, started without a page token and
    continued with each page's [nextPageToken], are answered with the pages
    [ps] and then with a page [last] that has no [nextPageToken], the
    result is the files of [ps] followed by those of [last]; a page
    without files, or a [null] answer, adds nothing. *)
Theorem listAllNoteFiles_concat {W : Type}
    (request : option string → W → W * reply (option FilesPage))
    (ps : list (option FilesPage)) (last : option FilesPage)
    (pageToken : option string) (w w1 w' : W) (fuel : nat) :
  leads request None w ps pageToken w1 →
  request pageToken w1 = (w', Ok last) →
  nonempty (last ≫= page_next) = None →
  (length ps < fuel)%nat →
  listAllNoteFilesPaged request fuel w
  = (w', Ret (concat (filesOf <$> ps) ++ filesOf last)).
Proof.
  intros Hps Hlast Hend Hfuel. unfold listAllNoteFilesPaged.
  replace fuel with (length ps + S (fuel - S (length ps)))%nat by lia.
  rewrite (listAllNoteFilesFrom_leads _ _ _ _ _ _ _ _ Hps). simpl.
  by rewrite Hlast, Hend.
Qed.

(** X17. listAllNoteFiles is all or nothing: when a request fails, on the
    first page or after any number of pages, the listing throws that Error
    and returns none of the files of the pages before. *)
Theorem listAllNoteFiles_fails {W : Type}
    (request : option string → W → W * reply (option FilesPage))
    (ps : list (option FilesPage)) (pageToken : option string)
    (w w1 w' : W) (e : string) (fuel : nat) :
  leads request None w ps pageToken w1 →
  request pageToken w1 = (w', Fail e) →
  (length ps < fuel)%nat →
  listAllNoteFilesPaged request fuel w = (w', Throw e).
Proof.
  intros Hps Hfail Hfuel. unfold listAllNoteFilesPaged.
  replace fuel with (length ps + S (fuel - S (length ps)))%nat by lia.
  rewrite (listAllNoteFilesFrom_leads _ _ _ _ _ _ _ _ Hps). simpl.
  by rewrite Hfail.
Qed.

Lemma listAllNoteFiles_concat_witness :
  listAllNoteFilesPaged FakePages.request 5 true
  = (true, Ret [FakePages.fileA; FakePages.fileB]).
Proof.
  apply (listAllNoteFiles_concat FakePages.request [FakePages.page1] FakePages.page2
           (Some "p2") true true true 5).
  - exists true, "p2". repeat split.
  - reflexivity.
  - reflexivity.
  - simpl. lia.
Defined.

Lemma listAllNoteFiles_fails_witness :
  listAllNoteFilesPaged FakePages.request 5 false = (false, Throw "Backend Error").
Proof.
  apply (listAllNoteFiles_fails FakePages.request [FakePages.page1] (Some "p2")
           false false false "Backend Error" 5).
  - exists false, "p2". repeat split.
  - reflexivity.
  - simpl. lia.
Defined.

(** ** driveApi.js: failed requests, and what pushDelete makes of them *)

Lemma status_message_not_found_table :
  forallb (λ s, Bool.eqb (is_not_found (status_message s)) (s =? 404)) (seqZ 100 500) = true.
Proof. vm_compute. reflexivity. Qed.

Lemma status_message_not_found (s : Z) :
  100 ≤ s ≤ 599 → is_not_found (status_message s) = (s =? 404).
Proof.
  intros Hs. pose proof status_message_not_found_table as Htable.
  rewrite forallb_forall in Htable. apply Bool.eqb_prop, Htable.
  apply list_elem_of_In, elem_of_seqZ. lia.
Qed.

Section DeleteResults.
Context {W D : Type}.
Variable parse : string → reply D.
Variable errorMessage : D → option string.
Variable api : DriveApi W.

Lemma deleteFileResult_empty_body res :
  text res = "" → ok res = false → status res ≠ 204 →
  deleteFileResult parse errorMessage res = Fail (status_message (status res)).
Proof.
  intros Htext Hok Hstatus. unfold deleteFileResult, driveRequest.
  destruct (Z.eqb_spec (status res) 204); [done|].
  by rewrite Htext, Hok.
Qed.
End DeleteResults.

(** X18. What pushDelete makes of a failed delete whose response has no
    body (so that driveRequest throws its own message with the status in
    it).  With status 404 the file counts as already gone: pushDelete
    returns and the mapping of the note is removed.  With any other
    three-digit status the Error is thrown on, with the status in its
    message, and the database is as it was. *)
Theorem pushDelete_on_empty_failure {W D : Type}
    (parse : string → reply D) (errorMessage : D → option string)
    (api : DriveApi W) (noteId : jsval) (k : idbkey) (f : string)
    (st : SyncState W) (w' : W) (res : Response) :
  to_key noteId = Some k →
  mappedFileId (driveMap (db st) !! k) = Some f →
  deleteFile api f (world st) = (w', deleteFileResult parse errorMessage res) →
  text res = "" → ok res = false → status res ≠ 204 → 100 ≤ status res ≤ 599 →
  pushDelete api noteId st
  = if status res =? 404
    then ({| db := set_driveMap (delete k) (db st); world := w';
             trace := trace st ++ [DeleteFile f] |}, Ret tt)
    else ({| db := db st; world := w'; trace := trace st ++ [DeleteFile f] |},
          Throw (status_message (status res))).
Proof.
  intros Hk Hf Hdel Htext Hok H204 Hrange.
  rewrite (pushDelete_run api _ _ _ Hk), (resolveFileId_run api _ _ _ Hk), Hf.
  unfold unlink. rewrite Hdel. cbn [fst snd].
  rewrite (deleteFileResult_empty_body _ _ _ Htext Hok H204).
  by rewrite (status_message_not_found _ Hrange).
Qed.

Lemma pushDelete_on_empty_failure_witness :
  let gone := {| status := 404; ok := false; text := "" |} in
  let api := {| createJsonFileMultipart := createJsonFileMultipart Fake.api;
                updateJsonFileMultipart := updateJsonFileMultipart Fake.api;
                deleteFile _ w :=
                  (w, deleteFileResult FakePages.parse FakePages.errorMessage gone);
                downloadFile := downloadFile Fake.api;
                getStartPageToken := getStartPageToken Fake.api;
                listChanges := listChanges Fake.api;
                queryNoteFile := queryNoteFile Fake.api;
                listAllNoteFiles := listAllNoteFiles Fake.api |} in
  let st := Fake.start (Fake.withMapping "b" "f1" Fake.emptyDb) Fake.emptyDrive in
  pushDelete api (JStr "b") st
  = ({| db := set_driveMap (delete (KStr "b")) (db st); world := Fake.emptyDrive;
        trace := [DeleteFile "f1"] |}, Ret tt).
Proof.
  intros gone api st.
  rewrite (pushDelete_on_empty_failure FakePages.parse FakePages.errorMessage api
             (JStr "b") (KStr "b") "f1" st Fake.emptyDrive gone);
    [reflexivity|reflexivity|reflexivity|reflexivity|reflexivity|reflexivity|done|done].
Defined.

(** ** db.js: listNotes, softDeleteNote, enqueueOp *)

Lemma StronglySorted_lookup {A} (R : relation A) (l : list A) (i j : nat) (a b : A) :
  StronglySorted R l → (i < j)%nat → l !! i = Some a → l !! j = Some b → R a b.
Proof.
  intros Hl. revert i j. induction Hl as [|x l Hl IH Hx]; intros i j Hij Ha Hb.
  - done.
  - destruct j as [|j]; [lia|]. destruct i as [|i]; simpl in *.
    + injection Ha as <-. eapply (proj1 (Forall_forall _ _) Hx).
      by eapply list_elem_of_lookup_2.
    + apply (IH i j); [lia|done..].
Qed.

Section JsSortFacts.
Context {A : Type}.
Variable cmp : A → A → jsnum.

Lemma js_insert_perm x l : js_insert cmp x l ≡ₚ x :: l.
Proof.
  induction l as [|y l IH]; simpl; [done|].
  destruct (num_gt _ _); [|done]. rewrite IH. apply Permutation_swap.
Qed.

Lemma js_sort_perm l : js_sort cmp l ≡ₚ l.
Proof. induction l as [|x l IH]; simpl; [done|]. by rewrite js_insert_perm, IH. Qed.

(** Sortedness, for a comparator that on the elements of the list is the
    difference of a finite rank. *)
Variable rank : A → Z.

Lemma js_insert_sorted x l :
  (∀ b, b ∈ l → cmp x b = Fin (rank b - rank x)) →
  StronglySorted (λ a b, rank b ≤ rank a) l →
  StronglySorted (λ a b, rank b ≤ rank a) (js_insert cmp x l).
Proof.
  induction l as [|y l IH]; intros Hcmp Hl; simpl.
  - repeat constructor.
  - apply StronglySorted_cons in Hl as [Hy Hl].
    rewrite (Hcmp y) by (by left). simpl.
    destruct (Z.ltb_spec 0 (rank y - rank x)).
    + apply StronglySorted_cons. split.
      * rewrite js_insert_perm. constructor; [lia|done].
      * apply IH; [|done]. intros b Hb. apply Hcmp. by right.
    + apply StronglySorted_cons. split.
      * constructor; [lia|]. eapply Forall_impl; [exact Hy|]. simpl. lia.
      * by apply StronglySorted_cons.
Qed.

Lemma js_sort_sorted l :
  (∀ a b, a ∈ l → b ∈ l → cmp a b = Fin (rank b - rank a)) →
  StronglySorted (λ a b, rank b ≤ rank a) (js_sort cmp l).
Proof.
  induction l as [|x l IH]; intros Hcmp; simpl; [constructor|].
  apply js_insert_sorted.
  - intros b Hb. apply Hcmp; [by left|]. right. by rewrite <- (js_sort_perm l).
  - apply IH. intros a b Ha Hb. apply Hcmp; by right.
Qed.
End JsSortFacts.

Lemma getAllNotes_perm (d : Db) : getAllNotes d ≡ₚ (map_to_list (notes d)).*2.
Proof. unfold getAllNotes. by rewrite merge_sort_Permutation. Qed.

Lemma getAllNotes_elem (d : Db) (n : Note) :
  n ∈ getAllNotes d ↔ ∃ k, notes d !! k = Some n.
Proof.
  rewrite getAllNotes_perm, list_elem_of_fmap. split.
  - intros [[k x] [-> Hin]]. exists k. by apply elem_of_map_to_list.
  - intros [k Hk]. exists (k, n). split; [done|]. by apply elem_of_map_to_list.
Qed.

Lemma listNotes_elem StringToNumber (d : Db) (n : Note) :
  n ∈ listNotes StringToNumber d ↔ (∃ k, notes d !! k = Some n) ∧ live n = true.
Proof.
  unfold listNotes. rewrite js_sort_perm, list_elem_of_filter, getAllNotes_elem. tauto.
Qed.

(** X19. listNotes hands out every stored note whose deletedAtMs is not
    truthy, once for each record of the store, and nothing else: sorting
    neither drops nor repeats a note, and no tombstone is listed. *)
Theorem listNotes_lists_the_live_notes StringToNumber (d : Db) :
  listNotes StringToNumber d
    ≡ₚ filter (λ n, truthy (prop n "deletedAtMs") = false) (map_to_list (notes d)).*2.
Proof.
  unfold listNotes. rewrite js_sort_perm, getAllNotes_perm.
  apply reflexive_eq, list_filter_iff. intros n. unfold live.
  by destruct (truthy _).
Qed.

(** X20. When the updatedAtMs of every listed note reads as a number,
    listNotes is ordered newest first: of two entries the later one never
    has the greater timestamp. *)
Theorem listNotes_newest_first StringToNumber (d : Db) (i j : nat) (a b : Note) :
  (∀ k n, notes d !! k = Some n → live n = true →
          ∃ z, stamp StringToNumber n = Fin z) →
  (i < j)%nat →
  listNotes StringToNumber d !! i = Some a →
  listNotes StringToNumber d !! j = Some b →
  ∃ x y, stamp StringToNumber a = Fin x ∧ stamp StringToNumber b = Fin y ∧ y ≤ x.
Proof.
  intros Hfin Hij Ha Hb.
  set (rank := λ n : Note,
         match stamp StringToNumber n with Fin z => z | NaN => 0 end).
  assert (Hrank : ∀ n, n ∈ listNotes StringToNumber d →
                       stamp StringToNumber n = Fin (rank n)).
  { intros n [[k Hk] Hlive]%listNotes_elem.
    destruct (Hfin k n Hk Hlive) as [z Hz]. unfold rank. by rewrite Hz. }
  assert (Hsorted : StronglySorted (λ a b, rank b ≤ rank a)
                      (listNotes StringToNumber d)).
  { unfold listNotes. apply js_sort_sorted. intros x y Hx Hy.
    rewrite (Hrank x), (Hrank y); [done| |];
      unfold listNotes; by rewrite js_sort_perm. }
  exists (rank a), (rank b). split_and!.
  - apply Hrank. by eapply list_elem_of_lookup_2.
  - apply Hrank. by eapply list_elem_of_lookup_2.
  - apply (StronglySorted_lookup _ _ _ _ _ _ Hsorted Hij Ha Hb).
Qed.

Lemma prop_insert_ne (n : Note) (p q : string) (v : jsval) :
  p ≠ q → prop (<[p := v]> n) q = prop n q.
Proof. intros Hpq. unfold prop. by rewrite lookup_insert_ne. Qed.

Lemma prop_insert_eq (n : Note) (p : string) (v : jsval) :
  prop (<[p := v]> n) p = v.
Proof. unfold prop. by rewrite lookup_insert_eq. Qed.

Section SoftDelete.
Context {W : Type}.
Variable StringToNumber : string → jsnum.

Lemma softDeleteNote_missing (noteId t : jsval) (k : idbkey) (st : SyncState W) :
  to_key noteId = Some k → notes (db st) !! k = None →
  softDeleteNote noteId t st = (st, Ret tt).
Proof.
  intros Hk Hnone. unfold softDeleteNote, getNote.
  rewrite bind_assoc, (bind_ret _ _ _ _ _ (as_key_run _ _ _ Hk)).
  unfold bind, readDb. by rewrite Hnone.
Qed.

Lemma softDeleteNote_present (noteId t : jsval) (k : idbkey) (note : Note)
    (st : SyncState W) :
  to_key noteId = Some k → notes (db st) !! k = Some note →
  to_key (prop note "noteId") = Some k →
  softDeleteNote noteId t st
  = ({| db := set_notes
               <[k := <["updatedAtMs" := t]> (<["deletedAtMs" := t]> note)]> (db st);
        world := world st; trace := trace st |}, Ret tt).
Proof.
  intros Hk Hnote Hid. unfold softDeleteNote, getNote.
  rewrite bind_assoc, (bind_ret _ _ _ _ _ (as_key_run _ _ _ Hk)).
  unfold bind at 1. unfold readDb. rewrite Hnote. unfold putNote.
  assert (Hid' : to_key (prop (<["updatedAtMs" := t]> (<["deletedAtMs" := t]> note))
                           "noteId") = Some k) by (by rewrite !prop_insert_ne).
  by rewrite (bind_ret _ _ _ _ _ (as_key_run _ _ _ Hid')).
Qed.
End SoftDelete.

(** X21. softDeleteNote with a truthy timestamp takes the note of that id,
    and no other, out of what listNotes hands out; it returns, also when no
    note has the id, and touches neither the outbox, the mappings, the sync
    metadata nor Drive. *)
Theorem softDeleteNote_hides_the_note {W} StringToNumber
    (noteId deletedAtMs : jsval) (k : idbkey) (st : SyncState W) :
  notes_keyed (db st) →
  to_key noteId = Some k →
  truthy deletedAtMs = true →
  ∃ st', softDeleteNote noteId deletedAtMs st = (st', Ret tt)
    ∧ (∀ n, n ∈ listNotes StringToNumber (db st')
            ↔ n ∈ listNotes StringToNumber (db st)
              ∧ to_key (prop n "noteId") ≠ Some k)
    ∧ outbox (db st') = outbox (db st)
    ∧ driveMap (db st') = driveMap (db st)
    ∧ syncMeta (db st') = syncMeta (db st)
    ∧ world st' = world st ∧ trace st' = trace st.
Proof.
  intros Hkeyed Hk Ht. destruct (notes (db st) !! k) as [note|] eqn:Hnote.
  - eexists. split.
    { exact (softDeleteNote_present noteId deletedAtMs k note st Hk Hnote
               (Hkeyed _ _ Hnote)). }
    split; [|done]. intros n. rewrite !listNotes_elem. simpl. split.
    + intros [[k' Hk'] Hlive]. destruct (decide (k' = k)) as [->|Hne].
      * rewrite lookup_insert_eq in Hk'. injection Hk' as <-.
        unfold live in Hlive. rewrite prop_insert_ne, prop_insert_eq, Ht in Hlive by done.
        done.
      * rewrite lookup_insert_ne in Hk' by done. split; [eauto|].
        rewrite (Hkeyed _ _ Hk'). congruence.
    + intros [[[k' Hk'] Hlive] Hne]. split; [|done]. exists k'.
      rewrite lookup_insert_ne; [done|]. intros <-.
      apply Hne. by apply Hkeyed.
  - exists st. split; [exact (softDeleteNote_missing noteId deletedAtMs k st Hk Hnote)|].
    split; [|done]. intros n. rewrite listNotes_elem. split; [|tauto].
    intros [[k' Hk'] Hlive]. split; [eauto|].
    rewrite (Hkeyed _ _ Hk'). intros [= ->]. congruence.
Qed.

(** X22. The record softDeleteNote leaves behind is the note with deletedAtMs
    and updatedAtMs set to the given time and every other property as it
    was, and against a remote copy whose timestamp is not later the resolver
    keeps it: the tombstone is not overwritten. *)
Theorem softDeleted_note_beats_older_remote {W} StringToNumber
    (noteId : jsval) (t r : Z) (k : idbkey) (note remote : Note) (st : SyncState W) :
  to_key noteId = Some k →
  notes (db st) !! k = Some note →
  to_key (prop note "noteId") = Some k →
  t ≠ 0 →
  stamp StringToNumber remote = Fin r →
  r ≤ t →
  ∃ st' tomb, softDeleteNote noteId (JNum (Fin t)) st = (st', Ret tt)
    ∧ getNote noteId st' = (st', Ret (Some tomb))
    ∧ prop tomb "deletedAtMs" = JNum (Fin t)
    ∧ prop tomb "updatedAtMs" = JNum (Fin t)
    ∧ (∀ p, p ≠ "deletedAtMs" → p ≠ "updatedAtMs" → tomb !! p = note !! p)
    ∧ mergeLastWriteWins StringToNumber (Some tomb) remote
      = {| winner := Local; merged := tomb |}.
Proof.
  intros Hk Hnote Hid Ht Hr Hle. eexists _, _.
  split; [exact (softDeleteNote_present noteId _ k note st Hk Hnote Hid)|]. split_and!.
  - unfold getNote. rewrite (bind_ret _ _ _ _ _ (as_key_run _ _ _ Hk)).
    unfold readDb. simpl. by rewrite lookup_insert_eq.
  - by rewrite prop_insert_ne, prop_insert_eq.
  - by rewrite prop_insert_eq.
  - intros p Hp1 Hp2. by rewrite !lookup_insert_ne.
  - unfold mergeLastWriteWins. fold (stamp StringToNumber remote). rewrite Hr.
    rewrite prop_insert_eq. unfold js_or. simpl.
    destruct (Z.eqb_spec t 0) as [->|_]; [done|]. simpl.
    by destruct (Z.ltb_spec t r); [lia|].
Qed.

(** ** enqueueOp *)

Lemma op_le_antisym_id (a b : Op) : op_le a b → op_le b a → a.1 = b.1.
Proof.
  rewrite !op_le_iff. unfold String.le.
  intros [?|[? Hab]] [?|[? Hba]]; try lia.
  apply String.leb_antisym; by apply Is_true_true.
Qed.

(** X23. An operation enqueued under a fresh opId with a queuedAtMs later
    than that of every queued operation goes to the end of the queue:
    listOps hands out the operations it handed out before, in the same
    order, and then the new one.  The other stores are not touched. *)
Theorem enqueueOp_queues_last {W} (op : Op) (st : SyncState W) :
  outbox (db st) !! op.1 = None →
  (∀ o, o ∈ listOps (db st) → queuedAtMs o.2 < queuedAtMs op.2) →
  ∃ st', enqueueOp op st = (st', Ret tt)
    ∧ listOps (db st') = listOps (db st) ++ [op]
    ∧ notes (db st') = notes (db st)
    ∧ driveMap (db st') = driveMap (db st)
    ∧ syncMeta (db st') = syncMeta (db st)
    ∧ world st' = world st ∧ trace st' = trace st.
Proof.
  intros Hfresh Hlater. eexists. split; [reflexivity|]. split; [|done]. simpl.
  assert (Hperm : listOps (set_outbox <[op.1 := op.2]> (db st))
                    ≡ₚ listOps (db st) ++ [op]).
  { unfold listOps. simpl. rewrite !merge_sort_Permutation.
    rewrite (map_to_list_insert _ _ _ Hfresh), <- Permutation_cons_append.
    by destruct op. }
  apply (StronglySorted_unique_strong op_le); [| | |done].
  - intros a b Ha Hb Hab Hba. rewrite <- Hperm in Hb.
    apply listOps_elem in Ha, Hb. pose proof (op_le_antisym_id _ _ Hab Hba) as Hid.
    destruct a as [i x], b as [j y]. simpl in *. subst j. congruence.
  - unfold listOps. apply StronglySorted_merge_sort; apply _.
  - apply StronglySorted_app_2.
    + intros a b Ha ->%list_elem_of_singleton. apply op_le_iff. left. by apply Hlater.
    + unfold listOps. apply StronglySorted_merge_sort; apply _.
    + repeat constructor.
Qed.

(** X24. After enqueueOp the queue holds the operation, and any other
    operation exactly when it was queued before under a different opId: an
    operation queued earlier under the same opId is replaced. *)
Theorem enqueueOp_listed {W} (op o : Op) (st : SyncState W) :
  o ∈ listOps (db (enqueueOp op st).1)
  ↔ o = op ∨ (o.1 ≠ op.1 ∧ o ∈ listOps (db st)).
Proof.
  rewrite !listOps_elem. simpl. destruct o as [i x], op as [j y]. simpl.
  destruct (decide (i = j)) as [->|Hne].
  - rewrite lookup_insert_eq. split; [intros [= ->]; by left|].
    intros [[= ->]|[? _]]; done.
  - rewrite lookup_insert_ne by done. split; [by right|].
    intros [[= -> ->]|[_ ?]]; done.
Qed.

Lemma listNotes_newest_first_witness :
  let d := Fake.withNote (Fake.note "a" 100 "local a")
             (Fake.withNote (Fake.note "b" 200 "remote b") Fake.emptyDb) in
  ∃ x y, stamp Fake.StringToNumber (Fake.note "b" 200 "remote b") = Fin x
         ∧ stamp Fake.StringToNumber (Fake.note "a" 100 "local a") = Fin y
         ∧ y ≤ x.
Proof.
  intros d.
  apply (listNotes_newest_first Fake.StringToNumber d 0 1);
    [|lia|vm_compute; reflexivity|vm_compute; reflexivity].
  intros k n Hk _. simpl in Hk.
  apply lookup_insert_Some in Hk as [[_ <-]|[_ Hk]]; [by exists 100|].
  apply lookup_insert_Some in Hk as [[_ <-]|[_ Hk]]; [by exists 200|].
  by rewrite lookup_empty in Hk.
Defined.

Lemma softDeleteNote_hides_the_note_witness :
  let st := Fake.start (Fake.withNote (Fake.note "a" 100 "local a")
                          (Fake.withNote (Fake.note "b" 200 "remote b") Fake.emptyDb))
              Fake.emptyDrive in
  ∃ st', softDeleteNote (JStr "a") (JNum (Fin 300)) st = (st', Ret tt)
    ∧ (∀ n, n ∈ listNotes Fake.StringToNumber (db st')
            ↔ n ∈ listNotes Fake.StringToNumber (db st)
              ∧ to_key (prop n "noteId") ≠ Some (KStr "a"))
    ∧ outbox (db st') = outbox (db st)
    ∧ driveMap (db st') = driveMap (db st)
    ∧ syncMeta (db st') = syncMeta (db st)
    ∧ world st' = world st ∧ trace st' = trace st.
Proof.
  intros st.
  apply (softDeleteNote_hides_the_note Fake.StringToNumber (JStr "a") (JNum (Fin 300))
           (KStr "a") st); [|reflexivity|reflexivity].
  intros k n Hk. simpl in Hk.
  apply lookup_insert_Some in Hk as [[<- <-]|[_ Hk]]; [reflexivity|].
  apply lookup_insert_Some in Hk as [[<- <-]|[_ Hk]]; [reflexivity|].
  by rewrite lookup_empty in Hk.
Defined.

Lemma softDeleted_note_beats_older_remote_witness :
  let st := Fake.start (Fake.withNote (Fake.note "b" 100 "local b") Fake.emptyDb)
              Fake.emptyDrive in
  ∃ st' tomb, softDeleteNote (JStr "b") (JNum (Fin 300)) st = (st', Ret tt)
    ∧ getNote (JStr "b") st' = (st', Ret (Some tomb))
    ∧ prop tomb "deletedAtMs" = JNum (Fin 300)
    ∧ prop tomb "updatedAtMs" = JNum (Fin 300)
    ∧ (∀ p, p ≠ "deletedAtMs" → p ≠ "updatedAtMs"
            → tomb !! p = Fake.note "b" 100 "local b" !! p)
    ∧ mergeLastWriteWins Fake.StringToNumber (Some tomb) (Fake.note "b" 200 "remote b")
      = {| winner := Local; merged := tomb |}.
Proof.
  intros st.
  apply (softDeleted_note_beats_older_remote Fake.StringToNumber (JStr "b") 300 200
           (KStr "b") (Fake.note "b" 100 "local b") (Fake.note "b" 200 "remote b") st);
    [reflexivity|vm_compute; reflexivity|reflexivity|lia|reflexivity|lia].
Defined.

Lemma enqueueOp_queues_last_witness :
  let st := Fake.start Fake.twoOps Fake.emptyDrive in
  let op := ("op3", {| type := Upsert; noteId := KStr "a"; queuedAtMs := 30 |}) in
  ∃ st', enqueueOp op st = (st', Ret tt)
    ∧ listOps (db st') = listOps (db st) ++ [op]
    ∧ notes (db st') = notes (db st)
    ∧ driveMap (db st') = driveMap (db st)
    ∧ syncMeta (db st') = syncMeta (db st)
    ∧ world st' = world st ∧ trace st' = trace st.
Proof.
  intros st op.
  apply (enqueueOp_queues_last op st); [vm_compute; reflexivity|].
  intros o Ho.
  assert (Hops : listOps (db st) = [Fake.op1; Fake.op2]) by (vm_compute; reflexivity).
  rewrite Hops in Ho.
  apply elem_of_cons in Ho as [->|Ho]; [simpl; lia|].
  apply elem_of_cons in Ho as [->|Ho]; [simpl; lia|].
  apply elem_of_nil in Ho. destruct Ho.
Defined.

Lemma enqueueOp_listed_witness :
  let st := Fake.start Fake.twoOps Fake.emptyDrive in
  let op := ("op2", {| type := Upsert; noteId := KStr "a"; queuedAtMs := 30 |}) in
  Fake.op1 ∈ listOps (db (enqueueOp op st).1)
  ∧ ¬ Fake.op2 ∈ listOps (db (enqueueOp op st).1).
Proof.
  intros st op. split.
  - apply (enqueueOp_listed op Fake.op1 st). right. split; [done|].
    apply listOps_elem. vm_compute; reflexivity.
  - intros Hin. apply (enqueueOp_listed op Fake.op2 st) in Hin as [Heq|[Hne _]]; done.
Defined.

(** ** util.js: snippet *)

Lemma replaceSpaces_spaced (l : ustring) (b : bool) :
  single_spaced (replaceSpaces b l)
  ∧ (b = true → no_space_first (replaceSpaces b l)).
Proof.
  revert b. induction l as [|c l IH]; intros b; simpl; [done|].
  destruct (is_space c) eqn:Hc.
  - destruct b; [apply IH|]. simpl. split; [|done].
    split; [|apply IH]. intros _. split; [done|]. by apply IH.
  - simpl. rewrite Hc. split; [|done]. split; [done|apply IH].
Qed.

Lemma replaceSpaces_id (l : ustring) (b : bool) :
  single_spaced l → (b = true → no_space_first l) → replaceSpaces b l = l.
Proof.
  revert b. induction l as [|c l IH]; intros b Hl Hb; simpl; [done|].
  destruct Hl as [Hc Hl]. destruct (is_space c) eqn:Hsp.
  - destruct (Hc eq_refl) as [-> Hnext]. destruct b.
    + specialize (Hb eq_refl). simpl in Hb. congruence.
    + f_equal. by apply IH.
  - f_equal. apply IH; [done|]. intros [=].
Qed.

Lemma single_spaced_app_l (l1 l2 : ustring) :
  single_spaced (l1 ++ l2) → single_spaced l1.
Proof.
  induction l1 as [|c l1 IH]; simpl; [done|]. intros [Hc Hl]. split; [|by apply IH].
  intros Hsp. destruct (Hc Hsp) as [-> Hnext]. split; [done|].
  by destruct l1.
Qed.

Lemma single_spaced_app_r (l1 l2 : ustring) :
  single_spaced (l1 ++ l2) → single_spaced l2.
Proof. induction l1 as [|c l1 IH]; simpl; [done|]. intros [_ Hl]. by apply IH. Qed.

Lemma single_spaced_app (l1 l2 : ustring) :
  single_spaced l1 → single_spaced l2 → no_space_first l2 → single_spaced (l1 ++ l2).
Proof.
  intros Hl1 Hl2 Hfirst. induction l1 as [|c l1 IH]; simpl; [done|].
  destruct Hl1 as [Hc Hl1]. split; [|by apply IH].
  intros Hsp. destruct (Hc Hsp) as [-> Hnext]. split; [done|].
  by destruct l1.
Qed.

Lemma trimStart_suffix (l : ustring) : ∃ p, l = p ++ trimStart l.
Proof.
  induction l as [|c l [p IH]]; simpl; [by exists []|].
  destruct (is_space c); [|by exists []]. exists (c :: p). simpl. by f_equal.
Qed.

Lemma trimStart_first (l : ustring) : no_space_first (trimStart l).
Proof.
  induction l as [|c l IH]; simpl; [done|].
  destruct (is_space c) eqn:Hc; [done|]. simpl. done.
Qed.

Lemma trimStart_id (l : ustring) : no_space_first l → trimStart l = l.
Proof. destruct l as [|c l]; simpl; [done|]. by intros ->. Qed.

Lemma trimEnd_prefix (l : ustring) : ∃ t, l = trimEnd l ++ t.
Proof.
  induction l as [|c l [t IH]]; simpl; [by exists []|].
  destruct (trimEnd l) as [|c' l'] eqn:Hl.
  - destruct (is_space c); [exists (c :: l)|exists l]; simpl; [done|].
    simpl in IH. by rewrite IH.
  - exists t. simpl. by rewrite IH at 1.
Qed.

Lemma trimEnd_first (l : ustring) : no_space_first l → no_space_first (trimEnd l).
Proof.
  destruct l as [|c l]; simpl; [done|]. intros Hc.
  destruct (trimEnd l); [by rewrite Hc|done].
Qed.

Lemma no_space_last_cons (c : Z) (l : ustring) :
  l ≠ [] → no_space_last (c :: l) ↔ no_space_last l.
Proof. unfold no_space_last. by destruct l. Qed.

Lemma trimEnd_nil (l : ustring) : trimEnd l = [] → l ≠ [] → ¬ no_space_last l.
Proof.
  induction l as [|c l IH]; [done|]. simpl. intros Hnil _.
  destruct (trimEnd l) as [|c' l'] eqn:Hl; [|done].
  destruct (is_space c) eqn:Hc; [|done].
  destruct l as [|c2 l2]; [unfold no_space_last; simpl; congruence|].
  rewrite no_space_last_cons by done. by apply IH.
Qed.

Lemma trimEnd_last (l : ustring) : no_space_last (trimEnd l).
Proof.
  induction l as [|c l IH]; simpl; [done|].
  destruct (trimEnd l) as [|c' l'] eqn:Hl.
  - destruct (is_space c) eqn:Hc; [done|]. unfold no_space_last. simpl. done.
  - by rewrite no_space_last_cons.
Qed.

Lemma trimEnd_id (l : ustring) : no_space_last l → trimEnd l = l.
Proof.
  induction l as [|c l IH]; simpl; [done|]. intros Hlast.
  destruct l as [|c2 l2].
  - simpl. unfold no_space_last in Hlast. simpl in Hlast. by rewrite Hlast.
  - rewrite no_space_last_cons in Hlast by done. by rewrite IH.
Qed.

Lemma no_space_last_app (l1 l2 : ustring) :
  l2 ≠ [] → no_space_last l2 → no_space_last (l1 ++ l2).
Proof.
  intros Hne Hl2. induction l1 as [|c l1 IH]; simpl; [done|].
  rewrite no_space_last_cons; [done|]. by destruct l1, l2.
Qed.

Lemma tidy_trim_replace (l : ustring) : tidy (trim (replaceSpaces false l)).
Proof.
  unfold tidy, trim. split_and!.
  - destruct (trimEnd_prefix (trimStart (replaceSpaces false l))) as [t Ht].
    destruct (trimStart_suffix (replaceSpaces false l)) as [p Hp].
    pose proof (proj1 (replaceSpaces_spaced l false)) as Hs.
    rewrite Hp in Hs. apply single_spaced_app_r in Hs.
    rewrite Ht in Hs. by apply single_spaced_app_l in Hs.
  - apply trimEnd_first, trimStart_first.
  - apply trimEnd_last.
Qed.

Lemma tidy_fixed (s : ustring) : tidy s → trim (replaceSpaces false s) = s.
Proof.
  intros (Hs & Hfirst & Hlast). unfold trim.
  rewrite replaceSpaces_id by done. rewrite trimStart_id by done. by apply trimEnd_id.
Qed.

Lemma tidy_take (s : ustring) (k : nat) : tidy s → tidy (take k s ++ ellipsis).
Proof.
  intros (Hs & Hfirst & Hlast). split_and!.
  - apply single_spaced_app; [|by vm_compute|by vm_compute].
    rewrite <- (take_drop k s) in Hs. by apply single_spaced_app_l in Hs.
  - destruct s as [|c s], k as [|k]; simpl; by vm_compute || done.
  - apply no_space_last_app; [done|by vm_compute].
Qed.

Lemma slice_from_0 {A} (s : list A) (e : Z) :
  slice s 0 e
  = take (Z.to_nat (if e <? 0 then Z.max (Z.of_nat (length s) + e) 0
                    else Z.min e (Z.of_nat (length s)))) s.
Proof.
  unfold slice. simpl. rewrite (Z.min_l 0) by lia. simpl. by rewrite Z.sub_0_r.
Qed.

Lemma snippet_unfold (text : option ustring) (maxLen : option Z) :
  let s := trim (replaceSpaces false (default [] text)) in
  snippet text maxLen = s ∨ ∃ k, snippet text maxLen = take k s ++ ellipsis.
Proof.
  intros s. unfold snippet. fold s.
  destruct (_ <=? _); [by left|]. right. rewrite slice_from_0. eauto.
Qed.

(** X25. Whatever the text and the bound, in the snippet whitespace only
    occurs as single spaces (U+0020) between other characters: no tab, line
    break or other whitespace character is left, no two spaces are adjacent,
    and the snippet neither begins nor ends with a space. *)
Theorem snippet_is_tidy (text : option ustring) (maxLen : option Z) :
  single_spaced (snippet text maxLen)
  ∧ no_space_first (snippet text maxLen)
  ∧ no_space_last (snippet text maxLen).
Proof.
  destruct (snippet_unfold text maxLen) as [->|[k ->]].
  - apply tidy_trim_replace.
  - apply tidy_take, tidy_trim_replace.
Qed.

Lemma snippet_fits (text : option ustring) (maxLen : option Z) :
  let s := trim (replaceSpaces false (default [] text)) in
  Z.of_nat (length s) ≤ default 90 maxLen → snippet text maxLen = s.
Proof.
  intros s Hfit. unfold snippet. fold s.
  by destruct (Z.leb_spec (Z.of_nat (length s)) (default 90 maxLen)); [|lia].
Qed.

Lemma snippet_cut (text : option ustring) (maxLen : option Z) :
  let s := trim (replaceSpaces false (default [] text)) in
  1 ≤ default 90 maxLen → default 90 maxLen < Z.of_nat (length s) →
  snippet text maxLen = take (Z.to_nat (default 90 maxLen - 1)) s ++ ellipsis.
Proof.
  intros s Hpos Hlong. unfold snippet. fold s.
  destruct (Z.leb_spec (Z.of_nat (length s)) (default 90 maxLen)); [lia|].
  rewrite slice_from_0. destruct (Z.ltb_spec (default 90 maxLen - 1) 0); [lia|].
  by rewrite Z.min_l by lia.
Qed.

(** X26. For a bound of at least 1 the snippet has at most maxLen + 2 code
    units, and exactly that many when the cleaned text is longer than
    maxLen: maxLen - 1 code units of the text and the three of the suffix
    that the source appends. *)
Theorem snippet_length (text : option ustring) (maxLen : option Z) :
  1 ≤ default 90 maxLen →
  Z.of_nat (length (snippet text maxLen)) ≤ default 90 maxLen + 2
  ∧ (default 90 maxLen
       < Z.of_nat (length (trim (replaceSpaces false (default [] text)))) →
     Z.of_nat (length (snippet text maxLen)) = default 90 maxLen + 2).
Proof.
  intros Hpos.
  destruct (Z.le_gt_cases
              (Z.of_nat (length (trim (replaceSpaces false (default [] text)))))
              (default 90 maxLen)) as [Hfit|Hlong].
  - rewrite snippet_fits by done. lia.
  - rewrite snippet_cut by done.
    rewrite length_app, length_take. simpl. lia.
Qed.

(** X27. A bound of 0 or less does not cut a non-empty text down to
    nothing: slice counts the negative end from the end of the text, so the
    snippet is the cleaned text without its last 1 - maxLen code units,
    followed by the suffix. *)
Theorem snippet_nonpositive_bound (text : option ustring) (maxLen : Z) :
  maxLen ≤ 0 →
  trim (replaceSpaces false (default [] text)) ≠ [] →
  snippet text (Some maxLen)
  = take (length (trim (replaceSpaces false (default [] text))) - Z.to_nat (1 - maxLen))
      (trim (replaceSpaces false (default [] text)))
    ++ ellipsis.
Proof.
  intros Hneg Hne. unfold snippet. simpl.
  set (s := trim (replaceSpaces false (default [] text))) in *.
  assert (0 < Z.of_nat (length s)) by (destruct s; [done|simpl; lia]).
  destruct (Z.leb_spec (Z.of_nat (length s)) maxLen); [lia|].
  rewrite slice_from_0. destruct (Z.ltb_spec (maxLen - 1) 0); [|lia].
  do 2 f_equal. lia.
Qed.

(** X28. For a bound of at least 1, snippet applied to a snippet gives it
    back unchanged. *)
Theorem snippet_idempotent (text : option ustring) (maxLen : option Z) :
  1 ≤ default 90 maxLen →
  snippet (Some (snippet text maxLen)) maxLen = snippet text maxLen.
Proof.
  intros Hpos.
  set (s := trim (replaceSpaces false (default [] text))).
  assert (Hs : tidy s) by apply tidy_trim_replace.
  destruct (Z.le_gt_cases (Z.of_nat (length s)) (default 90 maxLen)) as [Hfit|Hlong].
  - rewrite (snippet_fits text) by done. fold s.
    assert (Hfix : trim (replaceSpaces false (default [] (Some s))) = s)
      by (by apply tidy_fixed).
    rewrite snippet_fits; rewrite ?Hfix; done.
  - rewrite (snippet_cut text) by done. fold s.
    set (k := Z.to_nat (default 90 maxLen - 1)).
    assert (Hk : length (take k s) = k) by (rewrite length_take; lia).
    assert (Hfix : trim (replaceSpaces false (default [] (Some (take k s ++ ellipsis))))
                   = take k s ++ ellipsis) by (by apply tidy_fixed, tidy_take).
    rewrite snippet_cut; rewrite ?Hfix.
    + fold k. f_equal. by apply take_app_length'.
    + done.
    + rewrite length_app, Hk. simpl. lia.
Qed.

Lemma snippet_length_witness :
  Z.of_nat (length (snippet (Some [0x68; 0x65; 0x6C; 0x6C; 0x6F; 0x09; 0x0A; 0x77]) (Some 4)))
  = 4 + 2.
Proof.
  apply (snippet_length (Some [0x68; 0x65; 0x6C; 0x6C; 0x6F; 0x09; 0x0A; 0x77]) (Some 4));
    [simpl; lia|vm_compute; reflexivity].
Defined.

Lemma snippet_nonpositive_bound_witness :
  snippet (Some [0x68; 0x65; 0x6C; 0x6C; 0x6F]) (Some 0)
  = [0x68; 0x65; 0x6C; 0x6C] ++ ellipsis.
Proof.
  apply (snippet_nonpositive_bound (Some [0x68; 0x65; 0x6C; 0x6C; 0x6F]) 0); [lia|done].
Defined.

Lemma snippet_idempotent_witness :
  snippet (Some (snippet (Some [0x68; 0x65; 0x6C; 0x6C; 0x6F; 0x09; 0x0A; 0x77]) None)) None
  = snippet (Some [0x68; 0x65; 0x6C; 0x6C; 0x6F; 0x09; 0x0A; 0x77]) None.
Proof.
  apply (snippet_idempotent (Some [0x68; 0x65; 0x6C; 0x6C; 0x6F; 0x09; 0x0A; 0x77]) None).
  simpl; lia.
Defined.

(** ** util.js: createId *)

Lemma hex_byte_table :
  forallb (λ b, match padStart 2 zeroDigit (toString16 b) with
                | String x (String y EmptyString) => is_hex x && is_hex y
                | _ => false
                end) (seqZ 0 256) = true.
Proof. vm_compute. reflexivity. Qed.

Lemma hex_version_table :
  forallb (λ b, match padStart 2 zeroDigit (toString16 (Z.lor (Z.land b 0x0f) 0x40)) with
                | String x (String y EmptyString) => (code x =? 52) && is_hex y
                | _ => false
                end) (seqZ 0 256) = true.
Proof. vm_compute. reflexivity. Qed.

Lemma hex_variant_table :
  forallb (λ b, match padStart 2 zeroDigit (toString16 (Z.lor (Z.land b 0x3f) 0x80)) with
                | String x (String y EmptyString) =>
                    ((code x =? 56) || (code x =? 57) || (code x =? 97) || (code x =? 98))
                    && is_hex y
                | _ => false
                end) (seqZ 0 256) = true.
Proof. vm_compute. reflexivity. Qed.

Lemma hex_byte (b : Z) :
  0 ≤ b < 256 →
  ∃ x y, padStart 2 zeroDigit (toString16 b) = String x (String y "")
         ∧ is_hex x = true ∧ is_hex y = true.
Proof.
  intros Hb. pose proof hex_byte_table as Htable.
  rewrite forallb_forall in Htable.
  assert (Hin : In b (seqZ 0 256)) by (apply list_elem_of_In, elem_of_seqZ; lia).
  specialize (Htable b Hin).
  simpl in Htable.
  destruct (padStart 2 zeroDigit (toString16 b)) as [|x [|y [|]]]; try done.
  apply andb_prop in Htable as [? ?]. eauto.
Qed.

Lemma hex_version (b : Z) :
  0 ≤ b < 256 →
  ∃ x y, padStart 2 zeroDigit (toString16 (Z.lor (Z.land b 0x0f) 0x40))
         = String x (String y "")
         ∧ (code x =? 52) = true ∧ is_hex y = true.
Proof.
  intros Hb. pose proof hex_version_table as Htable.
  rewrite forallb_forall in Htable.
  assert (Hin : In b (seqZ 0 256)) by (apply list_elem_of_In, elem_of_seqZ; lia).
  specialize (Htable b Hin).
  simpl in Htable.
  destruct (padStart 2 zeroDigit _) as [|x [|y [|]]]; try done.
  apply andb_prop in Htable as [? ?]. eauto.
Qed.

Lemma hex_variant (b : Z) :
  0 ≤ b < 256 →
  ∃ x y, padStart 2 zeroDigit (toString16 (Z.lor (Z.land b 0x3f) 0x80))
         = String x (String y "")
         ∧ ((code x =? 56) || (code x =? 57) || (code x =? 97) || (code x =? 98)) = true
         ∧ is_hex y = true.
Proof.
  intros Hb. pose proof hex_variant_table as Htable.
  rewrite forallb_forall in Htable.
  assert (Hin : In b (seqZ 0 256)) by (apply list_elem_of_In, elem_of_seqZ; lia).
  specialize (Htable b Hin).
  simpl in Htable.
  destruct (padStart 2 zeroDigit _) as [|x [|y [|]]]; try done.
  apply andb_prop in Htable as [? ?]. eauto.
Qed.

(** X29. Where the host has no crypto.randomUUID, the id that createId
    builds from the 16 random bytes has the shape of a version 4 UUID:
    five groups of 8, 4, 4, 4 and 12 lower-case hexadecimal digits joined by
    hyphens, with 4 as the first digit of the third group and 8, 9, a or b
    as the first digit of the fourth. *)
Theorem createId_fallback_is_uuid_v4 (random : list Z) :
  length random = 16%nat →
  Forall (λ b, 0 ≤ b < 256) random →
  is_uuid_v4 (createId None random) = true.
Proof.
  intros Hlen Hbytes.
  do 16 (destruct random as [|? random]; [done|]).
  destruct random; [|done]. clear Hlen.
  repeat match goal with
         | H : Forall _ (_ :: _) |- _ => apply Forall_cons in H as [? H]
         end.
  unfold createId. cbn [list_insert list_lookup_total insert lookup_total fmap list_fmap].
  repeat match goal with
         | H : 0 ≤ ?b < 256 |- context [toString16 (Z.lor (Z.land ?b 15) 64)] =>
             destruct (hex_version b H) as (? & ? & -> & ? & ?); clear H
         | H : 0 ≤ ?b < 256 |- context [toString16 (Z.lor (Z.land ?b 63) 128)] =>
             destruct (hex_variant b H) as (? & ? & -> & ? & ?); clear H
         | H : 0 ≤ ?b < 256 |- context [toString16 ?b] =>
             destruct (hex_byte b H) as (? & ? & -> & ? & ?); clear H
         end.
  cbv -[is_hex code Z.eqb orb andb].
  repeat match goal with
         | H : _ = true |- _ => rewrite H; clear H
         end.
  reflexivity.
Qed.

Lemma createId_fallback_is_uuid_v4_witness :
  is_uuid_v4 (createId None [0; 17; 34; 51; 68; 85; 102; 119; 136; 153; 170; 187; 204; 221;
                             238; 255]) = true.
Proof.
  apply createId_fallback_is_uuid_v4; [reflexivity|].
  repeat (apply Forall_cons; split; [lia|]). apply Forall_nil_2.
Defined.
